(** * Oblivious SRP: the client-side protocol engine

    A shallow embedding of [type-srp.cjs], [sha256.cjs], [params.cjs],
    [client/SRPClient.cjs] and [client/OPRFClient.cjs], and the properties of
    the specification that concern them.

    Conventions of the embedding.
    - A JavaScript string is a list of characters ([str]); the strings that
      occur here are ASCII, so a character is also its UTF-8 byte.
    - A byte is an integer in [0, 256); a [Buffer] or [Uint8Array] is a list of
      bytes.
    - jsbn's [BigInteger] and the native [BigInt] are both unbounded integers
      ([Z]); the conversions between them go through decimal strings and are
      the identity on the value.
    - A function that may throw returns a [result]. *)

From Stdlib Require Import String.
From Stdlib Require Import ZArith List Ascii Bool Lia Permutation.
Import ListNotations.
Open Scope Z_scope.

(* ================================================================= *)
(** ** JavaScript values, strings and exceptions *)

Module JS.

Definition str := list ascii.

(** A string literal. *)
Definition lit (s : String.string) : str := String.list_ascii_of_string s.
Arguments lit s%_string.

Inductive exn :=
| TypeError (msg : str)
| RangeError (msg : str)
| Error (msg : str).

Inductive result (A : Type) :=
| Ok (a : A)
| Throw (e : exn).
Arguments Ok {A} a.
Arguments Throw {A} e.

Definition bind {A B} (r : result A) (f : A -> result B) : result B :=
  match r with
  | Ok a => f a
  | Throw e => Throw e
  end.

Definition code (c : ascii) : Z := Z.of_N (N_of_ascii c).
Definition chr (n : Z) : ascii := ascii_of_N (Z.to_N n).

(** [String.prototype.toLowerCase], on ASCII. *)
Definition toLowerCase1 (c : ascii) : ascii :=
  if (65 <=? code c) && (code c <=? 90) then chr (code c + 32) else c.
Definition toLowerCase (s : str) : str := map toLowerCase1 s.

(** The UTF-8 bytes of a string. *)
Definition utf8 (s : str) : list Z := map code s.

(** [/\s/] on ASCII: tab, line feed, vertical tab, form feed, carriage
    return, space. *)
Definition isSpace (c : ascii) : bool :=
  ((9 <=? code c) && (code c <=? 13)) || (code c =? 32).

(** [s.replace(/\s+/g, '')]. *)
Definition stripSpaces (s : str) : str := filter (fun c => negb (isSpace c)) s.

(** pad-start's [padStart(string, maxLength, fillString)] with a
    one-character fill: the string is returned as it is when it is already
    [maxLength] long or longer. *)
Definition padStart (s : str) (maxLength : nat) (fill : ascii) : str :=
  if (maxLength <=? length s)%nat then s
  else repeat fill (maxLength - length s) ++ s.

End JS.
Import JS.
Arguments lit s%_string.

Declare Scope js_scope.
Delimit Scope js_scope with js.
Notation "x <- c1 ;; c2" := (bind c1 (fun x => c2))
  (at level 61, c1 at next level, right associativity) : js_scope.
Open Scope js_scope.

(* ================================================================= *)
(** ** Hexadecimal digits *)

Module Hex.

(** The value of a hexadecimal digit, of either case. *)
Definition hexval (c : ascii) : option Z :=
  let n := code c in
  if (48 <=? n) && (n <=? 57) then Some (n - 48)
  else if (97 <=? n) && (n <=? 102) then Some (n - 87)
  else if (65 <=? n) && (n <=? 70) then Some (n - 55)
  else None.

Definition isHexDigit (c : ascii) : bool :=
  match hexval c with Some _ => true | None => false end.

(** A hex string: every character is a hexadecimal digit. *)
Definition isHex (s : str) : bool := forallb isHexDigit s.

(** jsbn's [int2char]: the character of a digit,
    ["0123456789abcdefghijklmnopqrstuvwxyz".charAt(d)]. *)
Definition int2char (d : Z) : ascii :=
  if d <? 10 then chr (48 + d) else chr (87 + d).

(** [Buffer.from(s, 'hex')]: two digits make a byte; decoding stops at the
    first pair that is not two hexadecimal digits, and a single digit left
    at the end is dropped. *)
Fixpoint hexDecode (s : str) : list Z :=
  match s with
  | c1 :: c2 :: rest =>
      match hexval c1, hexval c2 with
      | Some hi, Some lo => (16 * hi + lo) :: hexDecode rest
      | _, _ => []
      end
  | _ => []
  end.

(** [buf.toString('hex')] and [hash.digest('hex')]: two lowercase digits
    per byte. *)
Fixpoint hexEncode (bs : list Z) : str :=
  match bs with
  | [] => []
  | b :: rest => int2char (b / 16) :: int2char (b mod 16) :: hexEncode rest
  end.

End Hex.
Import Hex.

(* ================================================================= *)
(** ** jsbn's BigInteger, in radix 16 *)

Module BigInteger.

(** [new BigInteger(s, 16)] (jsbn's [fromString] with k = 4) scans the string
    from its last character: a digit x is put at the current shift (jsbn
    or-s it in; the bits of hexadecimal digits do not overlap, so this is an
    addition), which then grows by 4; a character that is no digit is
    skipped.  The pair is (value, shift).  The model is that of jsbn on
    strings of hexadecimal digits and of characters that are not
    alphanumeric (the letters g to z, which jsbn reads as 16 to 35, and a
    leading minus sign are outside it). *)
Fixpoint fromString16_scan (s : str) : Z * Z :=
  match s with
  | [] => (0, 0)
  | c :: rest =>
      let '(v, sh) := fromString16_scan rest in
      match hexval c with
      | Some x => (v + Z.shiftl x sh, sh + 4)
      | None => (v, sh)
      end
  end.

Definition fromString16 (s : str) : Z := fst (fromString16_scan s).

(** The number of 28-bit limbs of a magnitude ([this.t]). *)
Definition limbs (mag : Z) : Z :=
  if mag =? 0 then 0 else Z.log2 mag / 28 + 1.

(** The [n] low hexadecimal digits of [v], the most significant first. *)
Fixpoint digitsFrom (n : nat) (v : Z) : list Z :=
  match n with
  | O => []
  | S m => (Z.shiftr v (4 * Z.of_nat m)) mod 16 :: digitsFrom m v
  end.

(** Leading zero digits are not emitted (the flag [m] of [bnToString]). *)
Fixpoint skipZeros (ds : list Z) : list Z :=
  match ds with
  | 0 :: rest => skipZeros rest
  | _ => ds
  end.

(** [x.toString(16)]: a minus sign for a negative value, then the digits of
    the limbs from the top, leading zeros skipped; ["0"] when no digit was
    emitted. *)
Definition toString16 (v : Z) : str :=
  let mag := Z.abs v in
  let ds := skipZeros (digitsFrom (Z.to_nat (7 * limbs mag)) mag) in
  let r := match ds with
           | [] => lit "0"
           | _ => map int2char ds
           end in
  if v <? 0 then lit "-" ++ r else r.

(** [x.mod(m)]: the remainder of the magnitudes, taken from [m] when [x] is
    negative and the remainder is not zero.  (For m = 0 jsbn returns an
    uninitialised object; no property below uses the value there.) *)
Definition mod_ (x m : Z) : Z :=
  let r := Z.rem (Z.abs x) (Z.abs m) in
  if (x <? 0) && (0 <? r) then m - r else r.

(** [x.divide(m)] truncates toward zero.  (Same remark for m = 0.) *)
Definition divide (x m : Z) : Z := Z.quot x m.

End BigInteger.

(* ================================================================= *)
(** ** type-srp.cjs *)

Module TypeSRP.

Record t := mk { kBigInteger : Z; kHexLength : option nat }.

(** An exponent or modulus of [modPow]: a TypeSRP, or anything else, which
    goes through [BigInt(...)] (here a native integer). *)
Inductive intArg :=
| ofTypeSRP (v : t)
| ofNative (n : Z).

Definition fromHex (input : str) : t :=
  mk (BigInteger.fromString16 input) (Some (length input)).

Definition fromBigInt (bigInt : Z) : t := mk bigInt None.

Definition ZERO : t := mk 0 None.
Definition ONE : t := mk 1 None.

Definition toBigInt (this : t) : Z := kBigInteger this.

Definition add (this val : t) : t :=
  mk (kBigInteger this + kBigInteger val) None.

Definition equals (this val : t) : bool :=
  kBigInteger this =? kBigInteger val.

Definition multiply (this val : t) : t :=
  fromBigInt (toBigInt this * toBigInt val).

Definition divide (this val : t) : t :=
  mk (BigInteger.divide (kBigInteger this) (kBigInteger val)) (kHexLength this).

Definition mod_ (this m : t) : t :=
  mk (BigInteger.mod_ (kBigInteger this) (kBigInteger m)) (kHexLength m).

Definition subtract (this val : t) : t :=
  mk (kBigInteger this - kBigInteger val) (kHexLength this).

Definition xor (this val : t) : t :=
  mk (Z.lxor (kBigInteger this) (kBigInteger val)) (kHexLength this).

Definition toHex (this : t) : str :=
  let hex := BigInteger.toString16 (kBigInteger this) in
  match kHexLength this with
  | None => hex
  | Some n => padStart hex n "0"%char
  end.

Definition getHexLength (this : t) : option nat := kHexLength this.

Definition isGreaterThan (this val : t) : bool :=
  kBigInteger this >? kBigInteger val.

Definition isLessThan (this val : t) : bool :=
  kBigInteger this <? kBigInteger val.

(** The loop of [modularExponentiation], entered with [exp > 0].  On
    BigInt, [%] is the remainder of the truncated division ([Z.rem]) and
    [exp / 2n] of a positive [exp] drops its lowest bit: the recursion is on
    the binary digits of [exp], and the loop is left when [exp / 2n] is 0. *)
Fixpoint modexpLoop (result base : Z) (exp : positive) (mod_ : Z) : Z :=
  let result' :=
    if Z.rem (Zpos exp) 2 =? 1 then Z.rem (result * base) mod_ else result in
  let base' := Z.rem (base * base) mod_ in
  match exp with
  | xH => result'
  | xO half | xI half => modexpLoop result' base' half mod_
  end.

(** [base % mod] throws a RangeError when [mod] is [0n]; the loop is not
    entered when [exp] is not positive. *)
Definition modularExponentiation (base exp mod_ : Z) : result Z :=
  if mod_ =? 0 then Throw (RangeError (lit "Division by zero"))
  else
    let result := 1 in
    let base := Z.rem base mod_ in
    match exp with
    | Zpos e => Ok (modexpLoop result base e mod_)
    | _ => Ok result
    end.

Definition modPow (this : t) (exponent m : intArg) : result t :=
  let expBigInt :=
    match exponent with ofTypeSRP e => toBigInt e | ofNative n => n end in
  let modBigInt :=
    match m with ofTypeSRP v => toBigInt v | ofNative n => n end in
  r <- modularExponentiation (toBigInt this) expBigInt modBigInt ;;
  Ok (fromBigInt r).

(** [parseInt(s, 16)] on a piece of [toString(16)] output (characters
    [-0-9a-f]): an optional sign, then the longest run of digits; [None] is
    NaN. *)
Fixpoint parseDigits16 (s : str) (acc : option Z) : option Z :=
  match s with
  | [] => acc
  | c :: rest =>
      match hexval c with
      | Some d =>
          parseDigits16 rest
            (Some (16 * match acc with Some a => a | None => 0 end + d))
      | None => acc
      end
  end.

Definition parseInt16 (s : str) : option Z :=
  match s with
  | "-"%char :: rest => option_map Z.opp (parseDigits16 rest None)
  | "+"%char :: rest => parseDigits16 rest None
  | _ => parseDigits16 s None
  end.

(** A store into a Uint8Array: modulo 256, NaN becomes 0. *)
Definition toUint8 (x : option Z) : Z :=
  match x with
  | Some n => n mod 256
  | None => 0
  end.

(** [for (i = 0; i < hex.length; i += 2) byteArray[i / 2] =
    parseInt(hex.substr(i, 2), 16)], on a string of even length. *)
Fixpoint bytesOfPairs (hex : str) : list Z :=
  match hex with
  | c1 :: c2 :: rest => toUint8 (parseInt16 [c1; c2]) :: bytesOfPairs rest
  | _ => []
  end.

Definition toUint8Array (this : t) : list Z :=
  let hex := BigInteger.toString16 (kBigInteger this) in
  let hex := if Nat.eqb (length hex mod 2) 0 then hex else "0"%char :: hex in
  bytesOfPairs hex.

(** The loop of [gcd], [while (b !== 0n) [a, b] = [b, a % b]], cut after
    [fuel] turns ([None] when it is not over by then). *)
Fixpoint gcdLoop (fuel : nat) (a b : Z) : option Z :=
  if b =? 0 then Some a
  else
    match fuel with
    | O => None
    | S f => gcdLoop f b (Z.rem a b)
    end.

(** Two turns at least halve the magnitude of [b]: twice its bit length
    turns, and one more, end the loop for every [a] and [b]
    ([gcdLoop_total] below), so that the [None] of [gcd] is never met. *)
Definition gcdFuel (b : Z) : nat := S (2 * S (Z.to_nat (Z.log2 (Z.abs b)))).

Definition gcd (a b : Z) : Z :=
  match gcdLoop (gcdFuel b) a b with
  | Some r => r
  | None => 0
  end.

Definition modInverse (this m : t) : result t :=
  let aBigInt := toBigInt this in
  let mBigInt := toBigInt m in
  if negb (gcd aBigInt mBigInt =? 1) then
    Throw (Error (lit "Modular inverse does not exist: gcd(a, m) is not 1"))
  else
    r <- modularExponentiation aBigInt (mBigInt - 2) mBigInt ;;
    Ok (fromBigInt r).

(** [TypeSRP.randomInteger(bytes)].  [randomHex] stands for
    crypto-random-hex, which returns the hex encoding of [bytes] bytes drawn
    from the system's generator. *)
Definition randomInteger (randomHex : nat -> str) (bytes : nat) : t :=
  fromHex (randomHex bytes).

End TypeSRP.

(* ================================================================= *)
(** ** Node's crypto.createHash('sha256') *)

(** SHA-256 as FIPS 180-4 defines it, on bytes; words are integers in
    [0, 2^32) and every addition is reduced modulo 2^32. *)
Module SHA256.

Definition w32 (x : Z) : Z := x mod 4294967296.

Definition rotr (n x : Z) : Z :=
  Z.lor (Z.shiftr x n) (w32 (Z.shiftl x (32 - n))).
Definition shr (n x : Z) : Z := Z.shiftr x n.

Definition xor3 (x y z : Z) : Z := Z.lxor (Z.lxor x y) z.

Definition Ch (x y z : Z) : Z :=
  Z.lxor (Z.land x y) (Z.land (w32 (Z.lnot x)) z).
Definition Maj (x y z : Z) : Z :=
  xor3 (Z.land x y) (Z.land x z) (Z.land y z).
Definition bigSigma0 (x : Z) : Z := xor3 (rotr 2 x) (rotr 13 x) (rotr 22 x).
Definition bigSigma1 (x : Z) : Z := xor3 (rotr 6 x) (rotr 11 x) (rotr 25 x).
Definition smallSigma0 (x : Z) : Z := xor3 (rotr 7 x) (rotr 18 x) (shr 3 x).
Definition smallSigma1 (x : Z) : Z := xor3 (rotr 17 x) (rotr 19 x) (shr 10 x).

(** The constants are defined as FIPS 180-4 defines them: the first 32 bits
    of the fractional parts of the cube roots of the first sixty-four primes
    for [K], and of the square roots of the first eight primes for [H0].
    The fractional part of the k-th root of p, on 32 bits, is the integer k-th
    root of p * 2^(32 k) modulo 2^32. *)
Definition isPrime (n : Z) : bool :=
  forallb (fun d => negb (n mod d =? 0))
          (map Z.of_nat (seq 2 (Z.to_nat n - 2))).

Definition primes64 : list Z :=
  filter isPrime (map Z.of_nat (seq 2 310)).

(** The largest [r] below 2^[n] (added to the given [r]) whose k-th power is
    at most [x], a bit at a time. *)
Fixpoint rootBits (k : Z) (n : nat) (x r : Z) : Z :=
  match n with
  | O => r
  | S m =>
      let c := r + 2 ^ Z.of_nat m in
      if c ^ k <=? x then rootBits k m x c else rootBits k m x r
  end.

Definition fracRoot32 (k p : Z) : Z :=
  w32 (rootBits k 40 (p * 2 ^ (32 * k)) 0).

Definition K : list Z := map (fracRoot32 3) primes64.

Record state := mkState
  { ha : Z; hb : Z; hc : Z; hd : Z; he : Z; hf : Z; hg : Z; hh : Z }.

Definition H0 : state :=
  mkState (fracRoot32 2 2) (fracRoot32 2 3) (fracRoot32 2 5) (fracRoot32 2 7)
          (fracRoot32 2 11) (fracRoot32 2 13) (fracRoot32 2 17) (fracRoot32 2 19).

(** The [n] low bytes of [v], the most significant first. *)
Fixpoint bigEndian (n : nat) (v : Z) : list Z :=
  match n with
  | O => []
  | S m => (Z.shiftr v (8 * Z.of_nat m)) mod 256 :: bigEndian m v
  end.

(** The message, a 1 bit, zero bits up to 56 modulo 64 bytes, and the length
    in bits on 8 bytes. *)
Definition pad (msg : list Z) : list Z :=
  let len := Z.of_nat (length msg) in
  msg ++ [128] ++ repeat 0 (Z.to_nat ((55 - len) mod 64)) ++ bigEndian 8 (8 * len).

Fixpoint wordsOf (bs : list Z) : list Z :=
  match bs with
  | b0 :: b1 :: b2 :: b3 :: rest =>
      (b0 * 16777216 + b1 * 65536 + b2 * 256 + b3) :: wordsOf rest
  | _ => []
  end.

(** The message schedule grows at its head: [rw] holds the words computed so
    far, the latest first. *)
Fixpoint extend (n : nat) (rw : list Z) : list Z :=
  match n with
  | O => rw
  | S m =>
      let w := w32 (smallSigma1 (nth 1 rw 0) + nth 6 rw 0
                    + smallSigma0 (nth 14 rw 0) + nth 15 rw 0) in
      extend m (w :: rw)
  end.

Definition schedule (block : list Z) : list Z :=
  rev (extend 48 (rev (wordsOf block))).

Definition round (st : state) (k w : Z) : state :=
  let t1 := w32 (hh st + bigSigma1 (he st) + Ch (he st) (hf st) (hg st) + k + w) in
  let t2 := w32 (bigSigma0 (ha st) + Maj (ha st) (hb st) (hc st)) in
  mkState (w32 (t1 + t2)) (ha st) (hb st) (hc st)
          (w32 (hd st + t1)) (he st) (hf st) (hg st).

Fixpoint rounds (ks ws : list Z) (st : state) : state :=
  match ks, ws with
  | k :: ks', w :: ws' => rounds ks' ws' (round st k w)
  | _, _ => st
  end.

Definition compress (h : state) (block : list Z) : state :=
  let st := rounds K (schedule block) h in
  mkState (w32 (ha h + ha st)) (w32 (hb h + hb st)) (w32 (hc h + hc st))
          (w32 (hd h + hd st)) (w32 (he h + he st)) (w32 (hf h + hf st))
          (w32 (hg h + hg st)) (w32 (hh h + hh st)).

Fixpoint blocks (n : nat) (bs : list Z) (h : state) : state :=
  match n with
  | O => h
  | S m => blocks m (skipn 64 bs) (compress h (firstn 64 bs))
  end.

Definition digestBytes (h : state) : list Z :=
  bigEndian 4 (ha h) ++ bigEndian 4 (hb h) ++ bigEndian 4 (hc h)
  ++ bigEndian 4 (hd h) ++ bigEndian 4 (he h) ++ bigEndian 4 (hf h)
  ++ bigEndian 4 (hg h) ++ bigEndian 4 (hh h).

Definition sha256 (msg : list Z) : list Z :=
  let padded := pad msg in
  digestBytes (blocks (length padded / 64) padded H0).

End SHA256.

(* ================================================================= *)
(** ** sha256.cjs *)

Module Sha256.

(** What [hash(...args)] may be given. *)
Inductive value :=
| VTypeSRP (v : TypeSRP.t)
| VString (s : str)
| VNumber (n : Z)
| VBoolean (b : bool)
| VUndefined
| VNull.

(** [Buffer.from(arg.toHex(), 'hex')]. *)
Definition bufferOf (arg : TypeSRP.t) : list Z := hexDecode (TypeSRP.toHex arg).

(** The body of the loop: the bytes one argument adds to the hash. *)
Definition update (arg : value) : result (list Z) :=
  match arg with
  | VTypeSRP v => Ok (bufferOf v)
  | VString s => Ok (utf8 s)
  | _ => Throw (TypeError (lit "Expected string or TypeSRP"))
  end.

(** [for (const arg of args)]: everything the hash has been fed. *)
Fixpoint absorb (args : list value) : result (list Z) :=
  match args with
  | [] => Ok []
  | arg :: rest =>
      bs <- update arg ;;
      more <- absorb rest ;;
      Ok (bs ++ more)
  end.

(** [TypeSRP.fromHex(h.digest('hex'))]. *)
Definition digest (absorbed : list Z) : TypeSRP.t :=
  TypeSRP.fromHex (hexEncode (SHA256.sha256 absorbed)).

Definition hash (args : list value) : result TypeSRP.t :=
  absorbed <- absorb args ;;
  Ok (digest absorbed).

End Sha256.

(* ================================================================= *)
(** ** params.cjs *)

Module Params.

Definition largeSafePrime : str := lit "
        FFFFFFFF FFFFFFFF C90FDAA2 2168C234 C4C6628B 80DC1CD1 29024E08
        8A67CC74 020BBEA6 3B139B22 514A0879 8E3404DD EF9519B3 CD3A431B
        302B0A6D F25F1437 4FE1356D 6D51C245 E485B576 625E7EC6 F44C42E9
        A637ED6B 0BFF5CB6 F406B7ED EE386BFB 5A899FA5 AE9F2411 7C4B1FE6
        49286651 ECE45B3D C2007CB8 A163BF05 98DA4836 1C55D39A 69163FA8
        FD24CF5F 83655D23 DCA3AD96 1C62F356 208552BB 9ED52907 7096966D
        670C354E 4ABC9804 F1746C08 CA18217C 32905E46 2E36CE3B E39E772C
        180E8603 9B2783A2 EC07A28F B5C55DF0 6F4C52C9 DE2BCBF6 95581718
        3995497C EA956AE5 15D22618 98FA0510 15728E5A 8AAAC42D AD33170D
        04507A33 A85521AB DF1CBA64 ECFB8504 58DBEF0A 8AEA7157 5D060C7D
        B3970F85 A6E1E4C7 ABF5AE8C DB0933D7 1E8C94E0 4A25619D CEE3D226
        1AD2EE6B F12FFA06 D98A0864 D8760273 3EC86A64 521F2B18 177B200C
        BBE11757 7A615D6C 770988C0 BAD946E2 08E24FA0 74E5AB31 43DB5BFC
        E0FD108E 4B82D120 A93AD2CA FFFFFFFF FFFFFFFF
      ".

Definition generatorModulo : str := lit "05".

Definition hashOutputBytes : Z := 256 / 8.

(** N: a large safe prime. *)
Definition N : TypeSRP.t := TypeSRP.fromHex (stripSpaces largeSafePrime).

(** g: a generator modulo N. *)
Definition g : TypeSRP.t := TypeSRP.fromHex (stripSpaces generatorModulo).

(** H: the one-way hash function. *)
Definition H : list Sha256.value -> result TypeSRP.t := Sha256.hash.

(** k = H(N, g).  Both arguments are TypeSRP instances, so the call does not
    throw and its value is the digest of their two buffers ([k_is_H_N_g]
    below). *)
Definition k : TypeSRP.t :=
  Sha256.digest (Sha256.bufferOf N ++ Sha256.bufferOf g).

End Params.

(* ================================================================= *)
(** ** client/OPRFClient.cjs *)

Module OPRFClient.

(** What [encodeInput] is given: a Uint8Array or a string. *)
Inductive input :=
| ofUint8Array (bytes : list Z)
| ofString (s : str).

(** [/^[0-9a-fA-F]+$/i.test(input)]: one hexadecimal digit or more, and
    nothing else. *)
Definition isHexRegex (s : str) : bool :=
  match s with
  | [] => false
  | _ => isHex s
  end.

(** [input.match(/.{1,2}/g)] on a string without line ends: the characters
    two at a time, the last piece of one character when the length is odd. *)
Fixpoint matchPairs (s : str) : list str :=
  match s with
  | [] => []
  | [c] => [[c]]
  | c1 :: c2 :: rest => [c1; c2] :: matchPairs rest
  end.

Definition encodeInput (i : input) : list Z :=
  match i with
  | ofUint8Array bytes => bytes
  | ofString s =>
      if isHexRegex s then
        map (fun byte => TypeSRP.toUint8 (TypeSRP.parseInt16 byte)) (matchPairs s)
      else utf8 s
  end.

(** The client of @cloudflare/voprf-ts is not part of the repository: its
    operations are parameters (what [blind] draws at random is whatever it
    drew in the call at hand). *)
Section Primitive.

Variables FinalizeData EvaluationRequest Evaluation : Type.
Variable blind : list Z -> result (FinalizeData * EvaluationRequest).
Variable serialize : EvaluationRequest -> list Z.
Variable deserialize : list Z -> result Evaluation.
Variable finalize : FinalizeData -> Evaluation -> result (list Z).

Definition performBlindEvaluation (i : input) : result (FinalizeData * list Z) :=
  let inputBytes := encodeInput i in
  blinded <- blind inputBytes ;;
  let serializedEvalReq := serialize (snd blinded) in
  Ok (fst blinded, serializedEvalReq).

Definition deserializeEvaluation (responseData : list Z) : result Evaluation :=
  deserialize responseData.

Definition finalizeEvaluation
    (finData : FinalizeData) (deserializedEvaluation : Evaluation) :
    result (list Z) :=
  finalize finData deserializedEvaluation.

End Primitive.

End OPRFClient.

(* ================================================================= *)
(** ** client/SRPClient.cjs *)

Module SRPClient.
Import TypeSRP Params.
Import Sha256.

Record Session := mkSession { key : str; proof : str }.

Definition derivePrivateKey (salt username password : str) : result str :=
  let s := fromHex salt in
  let I := username in
  let p := password in
  inner <- H [VString (I ++ lit ":" ++ p)] ;;
  sk <- H [VTypeSRP s; VTypeSRP inner] ;;
  Ok (toHex sk).

Definition derivePrivateVerifier (privateKey : str) : result (list Z) :=
  let sk := fromHex privateKey in
  v <- modPow g (ofTypeSRP sk) (ofTypeSRP N) ;;
  Ok (toUint8Array v).

Definition deriveVerifierHash (args : list str) : result str :=
  let concatenatedInput := concat args in
  let inputInteger := fromHex concatenatedInput in
  x <- H [VTypeSRP inputInteger] ;;
  Ok (toHex x).

Definition derivePublicVerifier (verifierHash : str) : result str :=
  let x := fromHex verifierHash in
  v <- modPow g (ofTypeSRP x) (ofTypeSRP N) ;;
  Ok (toHex v).

(** [String(username)] is the identity on a string.  [B.add(N)...] is
    evaluated from the left; none of the calls after the test on B can
    throw, N being at least 2. *)
Definition deriveSession
    (clientSecretEphemeral serverPublicEphemeral salt username
     verifierHash : str) : result Session :=
  let a := fromHex clientSecretEphemeral in
  let B := fromHex serverPublicEphemeral in
  let s := fromHex salt in
  let I := username in
  let x := fromHex verifierHash in
  if equals (mod_ B N) ZERO then
    Throw (Error (lit "Server sent an invalid public ephemeral"))
  else
    A <- modPow g (ofTypeSRP a) (ofTypeSRP N) ;;
    u <- H [VTypeSRP A; VTypeSRP B] ;;
    gx <- modPow g (ofTypeSRP x) (ofTypeSRP N) ;;
    S <- modPow (mod_ (subtract (add B N) (mod_ (multiply k gx) N)) N)
                (ofTypeSRP (add a (multiply u x))) (ofTypeSRP N) ;;
    K <- H [VTypeSRP S] ;;
    hN <- H [VTypeSRP N] ;;
    hg <- H [VTypeSRP g] ;;
    hI <- H [VString I] ;;
    M <- H [VTypeSRP (xor hN hg); VTypeSRP hI; VTypeSRP s; VTypeSRP A;
            VTypeSRP B; VTypeSRP K] ;;
    Ok (mkSession (toHex K) (toHex M)).


Record Ephemeral := mkEphemeral { secret : str; public : str }.

(** [randomHex] is the generator behind [TypeSRP.randomInteger]. *)
Definition generateSalt (randomHex : nat -> str) : str :=
  toHex (randomInteger randomHex (Z.to_nat hashOutputBytes)).

Definition generateEphemeral (randomHex : nat -> str) : result Ephemeral :=
  let a := randomInteger randomHex (Z.to_nat hashOutputBytes) in
  A <- modPow g (ofTypeSRP a) (ofTypeSRP N) ;;
  Ok (mkEphemeral (toHex a) (toHex A)).

(** [byte.toString(16).padStart(2, '0')]: a Number writes the digits jsbn
    writes. *)
Definition byteToHex (byte : Z) : str :=
  padStart (BigInteger.toString16 byte) 2 "0"%char.

Section OPRF.

Variables FinalizeData EvaluationRequest Evaluation : Type.
Variable blind : list Z -> result (FinalizeData * EvaluationRequest).
Variable serialize : EvaluationRequest -> list Z.
Variable deserialize : list Z -> result Evaluation.
Variable finalize : FinalizeData -> Evaluation -> result (list Z).

Definition blindEvalOPRFInput (v_ : OPRFClient.input) :
    result (FinalizeData * list Z) :=
  OPRFClient.performBlindEvaluation _ _ blind serialize v_.

Definition finalizeOPRF (responseData : list Z) (blindData : FinalizeData) :
    result str :=
  deserializedEvaluation <- OPRFClient.deserializeEvaluation _ deserialize responseData ;;
  output <- OPRFClient.finalizeEvaluation _ _ finalize blindData deserializedEvaluation ;;
  let hexOutput := concat (map byteToHex output) in
  Ok hexOutput.

End OPRF.

End SRPClient.

(* ================================================================= *)
(** ** deriveVerifierHash as tutorial/example.cjs calls it *)

(** The tutorial passes the private verifier, a Uint8Array, next to the hex
    strings of the OPRF outputs.  [args.join('')] turns each argument into a
    string: a string is itself, a Uint8Array is its elements in decimal,
    joined by commas. *)
Module Dynamic.

Inductive arg :=
| JString (s : str)
| JUint8Array (bytes : list Z).

(** The [n] low decimal digits of [v], the most significant first. *)
Fixpoint decimalFrom (n : nat) (v : Z) : list Z :=
  match n with
  | O => []
  | S m => (v / 10 ^ Z.of_nat m) mod 10 :: decimalFrom m v
  end.

(** [Number.prototype.toString()] on an integer below 10^16 in magnitude
    (every safe integer is). *)
Definition numberToString (n : Z) : str :=
  let r := match BigInteger.skipZeros (decimalFrom 16 (Z.abs n)) with
           | [] => lit "0"
           | ds => map int2char ds
           end in
  if n <? 0 then lit "-" ++ r else r.

(** [Array.prototype.join(',')] on strings. *)
Fixpoint joinComma (l : list str) : str :=
  match l with
  | [] => []
  | [x] => x
  | x :: rest => x ++ ","%char :: joinComma rest
  end.

(** [String(arg)]. *)
Definition toString (a : arg) : str :=
  match a with
  | JString s => s
  | JUint8Array bytes => joinComma (map numberToString bytes)
  end.

Definition deriveVerifierHash (args : list arg) : result str :=
  let concatenatedInput := concat (map toString args) in
  let inputInteger := TypeSRP.fromHex concatenatedInput in
  x <- Params.H [Sha256.VTypeSRP inputInteger] ;;
  Ok (TypeSRP.toHex x).

End Dynamic.

(* ================================================================= *)
(** ** The error names of the specification *)

Definition BadArgumentKind : exn := TypeError (lit "Expected string or TypeSRP").
Definition InvalidServerEphemeral : exn :=
  Error (lit "Server sent an invalid public ephemeral").

(* ================================================================= *)
(** ** Notions the properties are stated with *)

Module Notions.

(** The digit a character stands for (0 when it is no digit). *)
Definition digitOf (c : ascii) : Z :=
  match hexval c with Some d => d | None => 0 end.

(** The number a list of hexadecimal digits denotes, the most significant
    digit first. *)
Fixpoint dval (ds : list Z) : Z :=
  match ds with
  | [] => 0
  | d :: rest => d * 16 ^ Z.of_nat (length rest) + dval rest
  end.

(** The number a list of bytes denotes in big-endian order. *)
Fixpoint bval (bs : list Z) : Z :=
  match bs with
  | [] => 0
  | b :: rest => b * 256 ^ Z.of_nat (length rest) + bval rest
  end.

Definition validDigits (ds : list Z) : Prop := Forall (fun d => 0 <= d < 16) ds.
Definition validBytes (bs : list Z) : Prop := Forall (fun b => 0 <= b < 256) bs.

(** The bit length of a non-negative integer. *)
Definition bitlen (v : Z) : Z := if v =? 0 then 0 else Z.log2 v + 1.

(** A hex string made of an even number of digits by a leading zero. *)
Definition evenHex (hex : str) : str :=
  if Nat.eqb (length hex mod 2) 0 then hex else "0"%char :: hex.

(** [hash] accepts a TypeSRP or a string; anything else is not. *)
Definition accepted (arg : Sha256.value) : bool :=
  match arg with
  | Sha256.VTypeSRP _ | Sha256.VString _ => true
  | _ => false
  end.

(** An argument [H] accepts, and the bytes it adds to the hash: the buffer of
    the hex encoding of a TypeSRP, the UTF-8 bytes of a string. *)
Inductive hashable :=
| HInt (v : TypeSRP.t)
| HStr (s : str).

Definition asValue (h : hashable) : Sha256.value :=
  match h with
  | HInt v => Sha256.VTypeSRP v
  | HStr s => Sha256.VString s
  end.

Definition absorbed (h : hashable) : list Z :=
  match h with
  | HInt v => hexDecode (TypeSRP.toHex v)
  | HStr s => utf8 s
  end.

(** H(a1, a2, ...): the SHA-256 digest of what the arguments add, in their
    order, read as a big-endian integer of 64 hex digits. *)
Definition Hof (args : list hashable) : TypeSRP.t :=
  TypeSRP.mk (bval (SHA256.sha256 (concat (map absorbed args)))) (Some 64%nat).

(** The session [deriveSession] computes, as a formula over the hash of the
    code [Hof] (derive_session, steps 2 to 6):
    A = g^a mod N, u = H(A, B),
    S = ((B + N - (k g^x mod N)) mod N)^(a + u x) mod N, K = H(S),
    M = H(H(N) xor H(g), H(I), s, A, B, K); the key is K and the proof is M,
    in hex.  A and S come out of [modPow] and carry no hex width. *)
Definition sessionFormula (a_hex B_hex s_hex I x_hex : str) : SRPClient.Session :=
  let N := TypeSRP.kBigInteger Params.N in
  let g := TypeSRP.kBigInteger Params.g in
  let k := TypeSRP.kBigInteger Params.k in
  let a := TypeSRP.kBigInteger (TypeSRP.fromHex a_hex) in
  let B := TypeSRP.kBigInteger (TypeSRP.fromHex B_hex) in
  let x := TypeSRP.kBigInteger (TypeSRP.fromHex x_hex) in
  let A := TypeSRP.fromBigInt (g ^ a mod N) in
  let u := TypeSRP.kBigInteger (Hof [HInt A; HInt (TypeSRP.fromHex B_hex)]) in
  let S := TypeSRP.fromBigInt
             (((B + N - (k * g ^ x) mod N) mod N) ^ (a + u * x) mod N) in
  let K := Hof [HInt S] in
  let M := Hof [HInt (TypeSRP.xor (Hof [HInt Params.N]) (Hof [HInt Params.g]));
                HInt (Hof [HStr I]); HInt (TypeSRP.fromHex s_hex); HInt A;
                HInt (TypeSRP.fromHex B_hex); HInt K] in
  SRPClient.mkSession (TypeSRP.toHex K) (TypeSRP.toHex M).

(** *** The hash and the session in the words of the specification *)

(** What H absorbs for an argument: for a BigInt the raw bytes of its hex
    encoding on an even number of digits, for a string its UTF-8 bytes. *)
Definition specAbsorbed (h : hashable) : list Z :=
  match h with
  | HInt v => hexDecode (evenHex (TypeSRP.toHex v))
  | HStr s => utf8 s
  end.

(** The digest bytes of H(a1, a2, ...): the arguments are absorbed in their
    order. *)
Definition specDigest (args : list hashable) : list Z :=
  SHA256.sha256 (concat (map specAbsorbed args)).

(** H(a1, a2, ...): the digest as a big-endian integer of hex width 64. *)
Definition specH (args : list hashable) : TypeSRP.t :=
  TypeSRP.mk (bval (specDigest args)) (Some 64%nat).

(** The multiplier k = H(N, g). *)
Definition specK : Z :=
  TypeSRP.kBigInteger (specH [HInt Params.N; HInt Params.g]).

(** A = g^a mod N; a result of mod_pow carries no hex width. *)
Definition specA (a_hex : str) : TypeSRP.t :=
  TypeSRP.mk (TypeSRP.kBigInteger Params.g ^ TypeSRP.kBigInteger (TypeSRP.fromHex a_hex)
              mod TypeSRP.kBigInteger Params.N) None.

(** u = H(A, B). *)
Definition specU (a_hex B_hex : str) : Z :=
  TypeSRP.kBigInteger (specH [HInt (specA a_hex); HInt (TypeSRP.fromHex B_hex)]).

(** S = ((B + N - (k g^x mod N)) mod N)^(a + u x) mod N. *)
Definition specS (a_hex B_hex x_hex : str) : TypeSRP.t :=
  let N := TypeSRP.kBigInteger Params.N in
  let g := TypeSRP.kBigInteger Params.g in
  let a := TypeSRP.kBigInteger (TypeSRP.fromHex a_hex) in
  let B := TypeSRP.kBigInteger (TypeSRP.fromHex B_hex) in
  let x := TypeSRP.kBigInteger (TypeSRP.fromHex x_hex) in
  TypeSRP.mk (((B + N - (specK * g ^ x) mod N) mod N)
              ^ (a + specU a_hex B_hex * x) mod N) None.

(** The arguments of M = H(H(N) xor H(g), H(I), s, A, B, K), where K = H(S);
    the xor is that of the two integers, on the hex width of a digest. *)
Definition specM (a_hex B_hex s_hex I x_hex : str) : list hashable :=
  [HInt (TypeSRP.mk
           (Z.lxor (TypeSRP.kBigInteger (specH [HInt Params.N]))
                   (TypeSRP.kBigInteger (specH [HInt Params.g])))
           (Some 64%nat));
   HInt (specH [HStr I]);
   HInt (TypeSRP.fromHex s_hex);
   HInt (specA a_hex);
   HInt (TypeSRP.fromHex B_hex);
   HInt (specH [HInt (specS a_hex B_hex x_hex)])].

(** The session: the key K.to_hex() and the proof M.to_hex() are the two
    digests on 64 lowercase hex digits. *)
Definition specSession (a_hex B_hex s_hex I x_hex : str) : SRPClient.Session :=
  SRPClient.mkSession
    (hexEncode (specDigest [HInt (specS a_hex B_hex x_hex)]))
    (hexEncode (specDigest (specM a_hex B_hex s_hex I x_hex))).

(** An argument whose hex encoding has an even number of digits. *)
Definition evenArg (h : hashable) : Prop :=
  match h with
  | HInt v => (length (TypeSRP.toHex v) mod 2 = 0)%nat
  | HStr _ => True
  end.

End Notions.
Import Notions.

(* ================================================================= *)
(** * Properties *)

(** ** Characters *)

Ltac each_ascii c :=
  destruct c as [[] [] [] [] [] [] [] []].

Ltac split_all := repeat match goal with |- _ /\ _ => split end.

Lemma hexval_range c d : hexval c = Some d -> 0 <= d < 16.
Proof.
  intros E; each_ascii c; vm_compute in E; try discriminate E;
    injection E as <-; lia.
Qed.

Lemma int2char_hexval c d : hexval c = Some d -> int2char d = toLowerCase1 c.
Proof.
  intros E; each_ascii c; vm_compute in E; try discriminate E;
    injection E as <-; reflexivity.
Qed.


Lemma digit_cases d : 0 <= d < 16 ->
  In d [0; 1; 2; 3; 4; 5; 6; 7; 8; 9; 10; 11; 12; 13; 14; 15].
Proof. intros H. simpl. lia. Qed.

Lemma hexval_int2char d : 0 <= d < 16 -> hexval (int2char d) = Some d.
Proof.
  intros H. apply digit_cases in H. simpl in H.
  repeat (destruct H as [<- | H]; [reflexivity |]). destruct H.
Qed.

Lemma isHexDigit_digitOf c : isHexDigit c = true -> hexval c = Some (digitOf c).
Proof.
  unfold isHexDigit, digitOf. destruct (hexval c); [reflexivity | discriminate].
Qed.

Lemma int2char_digitOf c : isHexDigit c = true -> int2char (digitOf c) = toLowerCase1 c.
Proof. intros H. apply int2char_hexval, isHexDigit_digitOf, H. Qed.

Lemma digitOf_int2char d : 0 <= d < 16 -> digitOf (int2char d) = d.
Proof. intros H. unfold digitOf. now rewrite hexval_int2char. Qed.

Lemma int2char_zero : int2char 0 = "0"%char.
Proof. reflexivity. Qed.

(** ** Lists of digits *)

Lemma pow16_pos n : 0 < 16 ^ Z.of_nat n.
Proof. apply Z.pow_pos_nonneg; lia. Qed.

Lemma pow16_succ n : 16 ^ Z.of_nat (S n) = 16 * 16 ^ Z.of_nat n.
Proof. rewrite Nat2Z.inj_succ, Z.pow_succ_r; lia. Qed.

Lemma dval_bounds ds : validDigits ds -> 0 <= dval ds < 16 ^ Z.of_nat (length ds).
Proof.
  induction 1 as [| d rest Hd _ IH]; simpl dval; simpl length.
  - simpl. lia.
  - rewrite pow16_succ. pose proof (pow16_pos (length rest)). nia.
Qed.

Lemma dval_inj ds1 : forall ds2,
  validDigits ds1 -> validDigits ds2 -> length ds1 = length ds2 ->
  dval ds1 = dval ds2 -> ds1 = ds2.
Proof.
  induction ds1 as [| d1 r1 IH]; intros [| d2 r2] V1 V2 L E;
    try discriminate L; [reflexivity |].
  inversion V1 as [| ? ? Hd1 Vr1]; inversion V2 as [| ? ? Hd2 Vr2]; subst.
  injection L as L. simpl in E. rewrite L in E.
  pose proof (dval_bounds r1 Vr1) as B1. pose proof (dval_bounds r2 Vr2) as B2.
  rewrite L in B1.
  assert (d1 = d2) by nia. subst d2.
  f_equal. apply IH; auto. lia.
Qed.

Lemma validDigits_app ds1 ds2 :
  validDigits ds1 -> validDigits ds2 -> validDigits (ds1 ++ ds2).
Proof. intros. apply Forall_app. split; assumption. Qed.

Lemma validDigits_repeat0 n : validDigits (repeat 0 n).
Proof. induction n; simpl; constructor; [lia | assumption]. Qed.

Lemma dval_repeat0_app n ds : dval (repeat 0 n ++ ds) = dval ds.
Proof. induction n; simpl; [reflexivity | lia]. Qed.

(** ** [fromString16] reads the digits of a hex string *)

Lemma fromString16_scan_hex s : isHex s = true ->
  BigInteger.fromString16_scan s = (dval (map digitOf s), 4 * Z.of_nat (length s)).
Proof.
  induction s as [| c rest IH]; intros Hs; [reflexivity |].
  simpl in Hs. apply andb_true_iff in Hs as [Hc Hr].
  cbn [BigInteger.fromString16_scan]. rewrite (IH Hr).
  rewrite (isHexDigit_digitOf c Hc).
  cbn [map dval]. rewrite Z.shiftl_mul_pow2 by lia.
  rewrite length_map.
  replace (2 ^ (4 * Z.of_nat (length rest))) with (16 ^ Z.of_nat (length rest))
    by (rewrite Z.pow_mul_r by lia; reflexivity).
  f_equal; [lia |]. simpl length. lia.
Qed.

Lemma fromString16_hex s : isHex s = true ->
  BigInteger.fromString16 s = dval (map digitOf s).
Proof.
  intros Hs. unfold BigInteger.fromString16. now rewrite fromString16_scan_hex.
Qed.

Lemma validDigits_digitOf s : validDigits (map digitOf s).
Proof.
  induction s as [| c rest IH]; simpl; constructor; [| assumption].
  unfold digitOf. destruct (hexval c) eqn:E; [eapply hexval_range; eassumption | lia].
Qed.

Lemma fromString16_bounds s : isHex s = true ->
  0 <= BigInteger.fromString16 s < 16 ^ Z.of_nat (length s).
Proof.
  intros Hs. rewrite (fromString16_hex s Hs).
  pose proof (dval_bounds _ (validDigits_digitOf s)) as B.
  now rewrite length_map in B.
Qed.

(** ** [toString16] writes the digits back *)

Lemma pow2_4 n : 0 <= n -> 2 ^ (4 * n) = 16 ^ n.
Proof. intros H. rewrite Z.pow_mul_r by lia. reflexivity. Qed.

Lemma digitsFrom_length n v : length (BigInteger.digitsFrom n v) = n.
Proof. induction n; simpl; congruence. Qed.

Lemma digitsFrom_valid n v : validDigits (BigInteger.digitsFrom n v).
Proof.
  induction n; simpl; constructor; [| assumption].
  apply Z.mod_pos_bound. lia.
Qed.

Lemma digitsFrom_dval n v : 0 <= v ->
  dval (BigInteger.digitsFrom n v) = v mod 16 ^ Z.of_nat n.
Proof.
  intros Hv. induction n as [| m IH].
  - simpl. now rewrite Z.mod_1_r.
  - cbn [BigInteger.digitsFrom dval]. rewrite digitsFrom_length, IH.
    rewrite Z.shiftr_div_pow2, pow2_4 by lia.
    rewrite pow16_succ, (Z.mul_comm 16).
    pose proof (pow16_pos m).
    rewrite Z.rem_mul_r by lia. lia.
Qed.

Lemma digitsFrom_zero n : BigInteger.digitsFrom n 0 = repeat 0 n.
Proof.
  induction n; simpl; [reflexivity |].
  rewrite Z.shiftr_0_l. f_equal. assumption.
Qed.

Lemma digitsFrom_unique n v ds :
  validDigits ds -> length ds = n -> dval ds = v -> BigInteger.digitsFrom n v = ds.
Proof.
  intros V L E. apply dval_inj.
  - apply digitsFrom_valid.
  - assumption.
  - now rewrite digitsFrom_length.
  - pose proof (dval_bounds ds V) as B. rewrite L, E in B.
    rewrite digitsFrom_dval by lia. rewrite Z.mod_small by lia. now symmetry.
Qed.

Lemma skipZeros_dval ds : dval (BigInteger.skipZeros ds) = dval ds.
Proof.
  induction ds as [| d rest IH]; [reflexivity |].
  destruct d; simpl; try reflexivity. rewrite IH. reflexivity.
Qed.

Lemma skipZeros_valid ds : validDigits ds -> validDigits (BigInteger.skipZeros ds).
Proof.
  induction 1 as [| d rest Hd V IH]; [constructor |].
  destruct d; simpl; try (constructor; assumption). assumption.
Qed.

Lemma skipZeros_idem ds :
  BigInteger.skipZeros (BigInteger.skipZeros ds) = BigInteger.skipZeros ds.
Proof.
  induction ds as [| d rest IH]; [reflexivity |].
  destruct d; simpl; auto.
Qed.

Lemma dval_leading d rest :
  validDigits (d :: rest) -> BigInteger.skipZeros (d :: rest) = d :: rest ->
  16 ^ Z.of_nat (length rest) <= dval (d :: rest).
Proof.
  intros V E. inversion V as [| ? ? Hd Vr]; subst.
  pose proof (dval_bounds rest Vr). pose proof (pow16_pos (length rest)).
  assert (d <> 0).
  { intros ->. simpl in E.
    assert (L : length (BigInteger.skipZeros rest) = length (0 :: rest)) by now rewrite E.
    clear -L. simpl in L.
    assert (length (BigInteger.skipZeros rest) <= length rest)%nat.
    { clear L. induction rest as [| x r IH]; simpl; [lia |].
      destruct x; simpl; lia. }
    lia. }
  simpl. nia.
Qed.

Lemma limbs_cover v : 0 <= v -> v < 16 ^ Z.of_nat (Z.to_nat (7 * BigInteger.limbs v)).
Proof.
  intros Hv. unfold BigInteger.limbs. destruct (v =? 0) eqn:E.
  - apply Z.eqb_eq in E. subst. simpl. lia.
  - apply Z.eqb_neq in E.
    pose proof (Z.log2_nonneg v) as Hl.
    assert (0 <= Z.log2 v / 28) by (apply Z.div_pos; lia).
    rewrite Z2Nat.id by lia.
    rewrite <- pow2_4 by lia.
    destruct (Z.log2_spec v) as [_ Hlt]; [lia |].
    eapply Z.lt_le_trans; [exact Hlt |].
    apply Z.pow_le_mono_r; [lia |].
    pose proof (Z.mod_pos_bound (Z.log2 v) 28 ltac:(lia)).
    pose proof (Z.div_mod (Z.log2 v) 28 ltac:(lia)). lia.
Qed.

(** The shape of [toString16] on a non-negative integer: its digits without
    leading zeros, or ["0"]. *)
Lemma toString16_nonneg v : 0 <= v ->
  exists ds, validDigits ds /\ dval ds = v /\ BigInteger.skipZeros ds = ds /\
    BigInteger.toString16 v =
      match ds with [] => lit "0" | _ => map int2char ds end.
Proof.
  intros Hv. unfold BigInteger.toString16.
  rewrite Z.abs_eq by lia.
  replace (v <? 0) with false by (symmetry; apply Z.ltb_ge; lia).
  set (W := Z.to_nat (7 * BigInteger.limbs v)).
  exists (BigInteger.skipZeros (BigInteger.digitsFrom W v)).
  repeat split.
  - apply skipZeros_valid, digitsFrom_valid.
  - rewrite skipZeros_dval, digitsFrom_dval by lia.
    apply Z.mod_small. split; [lia |]. apply limbs_cover. lia.
  - apply skipZeros_idem.
Qed.

Lemma repeat_snoc {A} (a : A) n : repeat a n ++ [a] = repeat a (S n).
Proof. induction n; simpl; [reflexivity |]. f_equal. assumption. Qed.

(** Padding the minimal digits of [v] to a width that can hold [v] gives its
    digits on that width. *)
Lemma padStart_toString16 v n : 0 <= v < 16 ^ Z.of_nat n -> (1 <= n)%nat ->
  padStart (BigInteger.toString16 v) n "0"%char =
  map int2char (BigInteger.digitsFrom n v).
Proof.
  intros Hv Hn.
  destruct (toString16_nonneg v) as (ds & V & E & Hs & ->); [lia |].
  destruct ds as [| d rest].
  - simpl in E. subst v. rewrite digitsFrom_zero, map_repeat, int2char_zero.
    unfold padStart. simpl length.
    destruct (Nat.leb_spec n 1).
    + assert (n = 1%nat) by lia. subst. reflexivity.
    + replace n with (S (n - 1)) at 2 by lia. rewrite <- repeat_snoc. reflexivity.
  - pose proof (dval_leading d rest V Hs) as Hlow.
    assert (Hlen : (length (d :: rest) <= n)%nat).
    { simpl length. apply Nat.le_succ_l. apply Nat2Z.inj_lt.
      apply (Z.pow_lt_mono_r_iff 16); lia. }
    assert (Hpad : padStart (map int2char (d :: rest)) n "0"%char =
                   map int2char (repeat 0 (n - length (d :: rest)) ++ d :: rest)).
    { unfold padStart. rewrite length_map.
      rewrite map_app, map_repeat, int2char_zero.
      destruct (Nat.leb_spec n (length (d :: rest))).
      - replace (n - length (d :: rest))%nat with 0%nat by lia. reflexivity.
      - reflexivity. }
    rewrite Hpad. f_equal. symmetry. apply digitsFrom_unique.
    + apply validDigits_app; [apply validDigits_repeat0 | assumption].
    + rewrite length_app, repeat_length. lia.
    + rewrite dval_repeat0_app. assumption.
Qed.

Lemma map_int2char_digitOf s : isHex s = true ->
  map int2char (map digitOf s) = toLowerCase s.
Proof.
  induction s as [| c rest IH]; intros Hs; [reflexivity |].
  simpl in Hs. apply andb_true_iff in Hs as [Hc Hr].
  simpl. rewrite int2char_digitOf by assumption. f_equal. now apply IH.
Qed.

(** [toHex] after [fromHex], on a hex string that is not empty. *)
Lemma toHex_fromHex s : isHex s = true -> s <> [] ->
  TypeSRP.toHex (TypeSRP.fromHex s) = toLowerCase s.
Proof.
  intros Hs Hne. unfold TypeSRP.toHex, TypeSRP.fromHex. cbn [TypeSRP.kBigInteger TypeSRP.kHexLength].
  rewrite padStart_toString16.
  - rewrite (digitsFrom_unique _ _ (map digitOf s)).
    + now apply map_int2char_digitOf.
    + apply validDigits_digitOf.
    + apply length_map.
    + symmetry. now apply fromString16_hex.
  - now apply fromString16_bounds.
  - destruct s; [congruence | simpl; lia].
Qed.

(** ** Modular exponentiation *)

Lemma rem2_xI p : Z.rem (Zpos p~1) 2 = 1.
Proof.
  rewrite Z.rem_mod_nonneg by lia. rewrite Pos2Z.inj_xI.
  rewrite Z.add_comm, Z.mul_comm, Z.mod_add by lia. reflexivity.
Qed.

Lemma rem2_xO p : Z.rem (Zpos p~0) 2 = 0.
Proof.
  rewrite Z.rem_mod_nonneg by lia. rewrite Pos2Z.inj_xO.
  rewrite Z.mul_comm, Z.mod_mul by lia. reflexivity.
Qed.

Lemma quot2_xI p : Z.quot (Zpos p~1) 2 = Zpos p.
Proof.
  rewrite Z.quot_div_nonneg by lia. rewrite Pos2Z.inj_xI.
  symmetry. apply (Z.div_unique _ _ _ 1); lia.
Qed.

Lemma quot2_xO p : Z.quot (Zpos p~0) 2 = Zpos p.
Proof.
  rewrite Z.quot_div_nonneg by lia. rewrite Pos2Z.inj_xO.
  symmetry. apply (Z.div_unique _ _ _ 0); lia.
Qed.

(** One turn of the [while] loop, as the source writes it: [exp] becomes
    [exp / 2n], and the loop goes on while that is positive. *)
Lemma modexpLoop_turn result base exp m :
  TypeSRP.modexpLoop result base exp m =
    let result' :=
      if Z.rem (Zpos exp) 2 =? 1 then Z.rem (result * base) m else result in
    let base' := Z.rem (base * base) m in
    match Z.quot (Zpos exp) 2 with
    | Zpos half => TypeSRP.modexpLoop result' base' half m
    | _ => result'
    end.
Proof.
  destruct exp as [p | p |]; cbn [TypeSRP.modexpLoop]; cbv zeta.
  - rewrite quot2_xI. reflexivity.
  - rewrite quot2_xO. reflexivity.
  - reflexivity.
Qed.

Lemma modexpLoop_correct exp : forall result base m,
  0 < m -> 0 <= result -> 0 <= base ->
  TypeSRP.modexpLoop result base exp m = (result * base ^ Zpos exp) mod m.
Proof.
  induction exp as [p IH | p IH |]; intros result base m Hm Hr Hb;
    cbn [TypeSRP.modexpLoop]; cbv zeta.
  - rewrite rem2_xI. cbn [Z.eqb Pos.eqb].
    assert (0 <= result * base) by nia.
    assert (0 <= base * base) by nia.
    rewrite !Z.rem_mod_nonneg by lia.
    rewrite IH; try lia; try (apply Z.mod_pos_bound; lia).
    rewrite Pos2Z.inj_xI.
    rewrite Z.pow_add_r, Z.pow_1_r, Z.pow_mul_r by lia.
    rewrite Z.pow_2_r.
    rewrite Z.mul_mod by lia. rewrite Z.mod_mod by lia.
    rewrite Z.mod_pow_l.
    rewrite <- Z.mul_mod by lia. f_equal. ring.
  - rewrite rem2_xO. cbn [Z.eqb].
    assert (0 <= base * base) by nia.
    rewrite !Z.rem_mod_nonneg by lia.
    rewrite IH; try lia; try (apply Z.mod_pos_bound; lia).
    rewrite Pos2Z.inj_xO.
    rewrite Z.pow_mul_r by lia. rewrite Z.pow_2_r.
    rewrite Z.mul_mod by lia.
    rewrite Z.mod_pow_l.
    rewrite <- Z.mul_mod by lia. reflexivity.
  - change (Z.rem 1 2 =? 1) with true. cbv iota.
    assert (0 <= result * base) by nia.
    rewrite Z.rem_mod_nonneg by lia.
    rewrite Z.pow_1_r. reflexivity.
Qed.

(** [modularExponentiation] computes the power modulo [m], except that an
    exponent 0 gives 1 whatever the modulus. *)
Lemma modularExponentiation_correct base exp m :
  0 <= base -> 0 <= exp -> 1 <= m -> 2 <= m \/ 1 <= exp ->
  TypeSRP.modularExponentiation base exp m = Ok (base ^ exp mod m).
Proof.
  intros Hb He Hm Hor. unfold TypeSRP.modularExponentiation.
  replace (m =? 0) with false by (symmetry; apply Z.eqb_neq; lia).
  destruct exp as [| e | e]; [| | lia].
  - rewrite Z.pow_0_r, Z.mod_1_l by lia. reflexivity.
  - rewrite Z.rem_mod_nonneg by lia.
    rewrite modexpLoop_correct; try lia; [| apply Z.mod_pos_bound; lia].
    rewrite Z.mul_1_l, Z.mod_pow_l. reflexivity.
Qed.

Lemma modPow_correct (this e m : TypeSRP.t) :
  0 <= TypeSRP.kBigInteger this -> 0 <= TypeSRP.kBigInteger e ->
  2 <= TypeSRP.kBigInteger m ->
  TypeSRP.modPow this (TypeSRP.ofTypeSRP e) (TypeSRP.ofTypeSRP m) =
  Ok (TypeSRP.fromBigInt
        (TypeSRP.kBigInteger this ^ TypeSRP.kBigInteger e mod TypeSRP.kBigInteger m)).
Proof.
  intros. unfold TypeSRP.modPow, TypeSRP.toBigInt.
  rewrite modularExponentiation_correct by lia. reflexivity.
Qed.

(** ** The digest *)

Lemma pow256_pos n : 0 < 256 ^ Z.of_nat n.
Proof. apply Z.pow_pos_nonneg; lia. Qed.

Lemma pow256_succ n : 256 ^ Z.of_nat (S n) = 256 * 256 ^ Z.of_nat n.
Proof. rewrite Nat2Z.inj_succ, Z.pow_succ_r; lia. Qed.

Lemma pow16_double n : 16 ^ Z.of_nat (n + n) = 256 ^ Z.of_nat n.
Proof.
  rewrite Nat2Z.inj_add, Z.pow_add_r by lia.
  rewrite <- Z.pow_mul_l. reflexivity.
Qed.

Lemma bval_bounds bs : validBytes bs -> 0 <= bval bs < 256 ^ Z.of_nat (length bs).
Proof.
  induction 1 as [| b rest Hb _ IH]; simpl bval; simpl length.
  - simpl. lia.
  - rewrite pow256_succ. pose proof (pow256_pos (length rest)). nia.
Qed.

Lemma hexEncode_length bs : length (hexEncode bs) = (length bs + length bs)%nat.
Proof. induction bs as [| b rest IH]; simpl; [reflexivity | rewrite IH; lia]. Qed.

Lemma byte_digits b : 0 <= b < 256 -> 0 <= b / 16 < 16 /\ 0 <= b mod 16 < 16.
Proof.
  intros H. split.
  - split; [apply Z.div_pos; lia | apply Z.div_lt_upper_bound; lia].
  - apply Z.mod_pos_bound. lia.
Qed.

Lemma hexEncode_isHex bs : validBytes bs -> isHex (hexEncode bs) = true.
Proof.
  induction 1 as [| b rest Hb _ IH]; [reflexivity |].
  destruct (byte_digits b Hb) as [Hh Hl].
  simpl. unfold isHexDigit. rewrite !hexval_int2char by assumption. exact IH.
Qed.

Lemma hexEncode_digits bs : validBytes bs ->
  dval (map digitOf (hexEncode bs)) = bval bs.
Proof.
  induction 1 as [| b rest Hb _ IH]; [reflexivity |].
  destruct (byte_digits b Hb) as [Hh Hl].
  cbn [hexEncode map dval bval]. rewrite IH.
  rewrite !digitOf_int2char by assumption.
  cbn [length]. rewrite !length_map, hexEncode_length.
  rewrite pow16_succ, pow16_double.
  pose proof (Z.div_mod b 16 ltac:(lia)). nia.
Qed.

Lemma hexDecode_hexEncode bs : validBytes bs -> hexDecode (hexEncode bs) = bs.
Proof.
  induction 1 as [| b rest Hb _ IH]; [reflexivity |].
  destruct (byte_digits b Hb) as [Hh Hl].
  cbn [hexEncode hexDecode]. rewrite !hexval_int2char by assumption.
  rewrite IH. f_equal. pose proof (Z.div_mod b 16 ltac:(lia)). lia.
Qed.

Lemma bigEndian_valid n v : validBytes (SHA256.bigEndian n v).
Proof.
  induction n; simpl; constructor; [| assumption].
  apply Z.mod_pos_bound. lia.
Qed.

Lemma bigEndian_length n v : length (SHA256.bigEndian n v) = n.
Proof. induction n; simpl; congruence. Qed.

Lemma sha256_valid msg : validBytes (SHA256.sha256 msg).
Proof.
  unfold SHA256.sha256, SHA256.digestBytes.
  repeat (apply Forall_app; split); apply bigEndian_valid.
Qed.

Lemma sha256_length msg : length (SHA256.sha256 msg) = 32%nat.
Proof.
  unfold SHA256.sha256, SHA256.digestBytes.
  rewrite !length_app, !bigEndian_length. reflexivity.
Qed.

Lemma digest_hexLength absorbed :
  TypeSRP.kHexLength (Sha256.digest absorbed) = Some 64%nat.
Proof.
  unfold Sha256.digest, TypeSRP.fromHex. cbn [TypeSRP.kHexLength].
  rewrite hexEncode_length, sha256_length. reflexivity.
Qed.

Lemma digest_value absorbed :
  TypeSRP.kBigInteger (Sha256.digest absorbed) = bval (SHA256.sha256 absorbed).
Proof.
  unfold Sha256.digest, TypeSRP.fromHex. cbn [TypeSRP.kBigInteger].
  rewrite fromString16_hex by (apply hexEncode_isHex, sha256_valid).
  apply hexEncode_digits, sha256_valid.
Qed.

Lemma digest_bounds absorbed :
  0 <= TypeSRP.kBigInteger (Sha256.digest absorbed) < 2 ^ 256.
Proof.
  rewrite digest_value.
  pose proof (bval_bounds _ (sha256_valid absorbed)) as B.
  rewrite sha256_length in B. exact B.
Qed.

Lemma digest_eq absorbed' :
  Sha256.digest absorbed' = TypeSRP.mk (bval (SHA256.sha256 absorbed')) (Some 64%nat).
Proof.
  pose proof (digest_value absorbed') as V. pose proof (digest_hexLength absorbed') as L.
  destruct (Sha256.digest absorbed') as [v l]. cbn in V, L. now subst.
Qed.

Lemma absorb_typed args :
  Sha256.absorb (map asValue args) = Ok (concat (map absorbed args)).
Proof.
  induction args as [| h rest IH]; [reflexivity |].
  cbn [map Sha256.absorb concat]. rewrite IH.
  destruct h; reflexivity.
Qed.

(** [H] on TypeSRP and string arguments does not throw and is [Hof]. *)
Lemma hash_typed args : Params.H (map asValue args) = Ok (Hof args).
Proof.
  unfold Params.H, Sha256.hash. rewrite absorb_typed. cbn [bind].
  rewrite digest_eq. reflexivity.
Qed.

Lemma Hof_bounds args : 0 <= TypeSRP.kBigInteger (Hof args) < 2 ^ 256.
Proof.
  unfold Hof. cbn [TypeSRP.kBigInteger].
  pose proof (bval_bounds _ (sha256_valid (concat (map absorbed args)))) as B.
  rewrite sha256_length in B. exact B.
Qed.

Lemma hash1 v : Params.H [Sha256.VTypeSRP v] = Ok (Hof [HInt v]).
Proof. exact (hash_typed [HInt v]). Qed.

Lemma hash1s s : Params.H [Sha256.VString s] = Ok (Hof [HStr s]).
Proof. exact (hash_typed [HStr s]). Qed.

Lemma hash2 v1 v2 :
  Params.H [Sha256.VTypeSRP v1; Sha256.VTypeSRP v2] = Ok (Hof [HInt v1; HInt v2]).
Proof. exact (hash_typed [HInt v1; HInt v2]). Qed.


Lemma hash6 v1 v2 v3 v4 v5 v6 :
  Params.H [Sha256.VTypeSRP v1; Sha256.VTypeSRP v2; Sha256.VTypeSRP v3;
            Sha256.VTypeSRP v4; Sha256.VTypeSRP v5; Sha256.VTypeSRP v6] =
  Ok (Hof [HInt v1; HInt v2; HInt v3; HInt v4; HInt v5; HInt v6]).
Proof. exact (hash_typed [HInt v1; HInt v2; HInt v3; HInt v4; HInt v5; HInt v6]). Qed.

(** ** The group parameters *)

Lemma N_hexLength : TypeSRP.kHexLength Params.N = Some 768%nat.
Proof. vm_compute. reflexivity. Qed.

Lemma N_large : 2 ^ 3071 <= TypeSRP.kBigInteger Params.N < 2 ^ 3072.
Proof. split; [vm_compute; discriminate | vm_compute; reflexivity]. Qed.

Lemma N_ge_2 : 2 <= TypeSRP.kBigInteger Params.N.
Proof. vm_compute. discriminate. Qed.

Lemma g_value : TypeSRP.kBigInteger Params.g = 5.
Proof. reflexivity. Qed.

Lemma k_is_H_N_g :
  Params.H [Sha256.VTypeSRP Params.N; Sha256.VTypeSRP Params.g] = Ok Params.k.
Proof.
  unfold Params.H, Sha256.hash, Params.k.
  cbn [Sha256.absorb Sha256.update bind]. rewrite app_nil_r. reflexivity.
Qed.

Lemma k_bounds : 0 <= TypeSRP.kBigInteger Params.k < 2 ^ 256.
Proof. apply digest_bounds. Qed.

Lemma bnmod_nonneg x m : 0 <= x -> 0 < m -> BigInteger.mod_ x m = x mod m.
Proof.
  intros Hx Hm. unfold BigInteger.mod_.
  replace (x <? 0) with false by (symmetry; apply Z.ltb_ge; lia).
  cbn [andb]. rewrite !Z.abs_eq by lia. apply Z.rem_mod_nonneg; lia.
Qed.


(** ** deriveSession *)

Lemma bind_Ok {A B} (a : A) (f : A -> result B) : bind (Ok a) f = f a.
Proof. reflexivity. Qed.

Lemma value_fromBigInt z : TypeSRP.kBigInteger (TypeSRP.fromBigInt z) = z.
Proof. reflexivity. Qed.

Lemma value_add x y :
  TypeSRP.kBigInteger (TypeSRP.add x y) = TypeSRP.kBigInteger x + TypeSRP.kBigInteger y.
Proof. reflexivity. Qed.

Lemma value_subtract x y :
  TypeSRP.kBigInteger (TypeSRP.subtract x y) = TypeSRP.kBigInteger x - TypeSRP.kBigInteger y.
Proof. reflexivity. Qed.

Lemma value_multiply x y :
  TypeSRP.kBigInteger (TypeSRP.multiply x y) = TypeSRP.kBigInteger x * TypeSRP.kBigInteger y.
Proof. reflexivity. Qed.

Lemma value_mod x m :
  0 <= TypeSRP.kBigInteger x -> 0 < TypeSRP.kBigInteger m ->
  TypeSRP.kBigInteger (TypeSRP.mod_ x m) = TypeSRP.kBigInteger x mod TypeSRP.kBigInteger m.
Proof. intros. unfold TypeSRP.mod_. cbn [TypeSRP.kBigInteger]. now apply bnmod_nonneg. Qed.

Lemma value_fromHex_nonneg s : isHex s = true -> 0 <= TypeSRP.kBigInteger (TypeSRP.fromHex s).
Proof. intros H. unfold TypeSRP.fromHex. cbn [TypeSRP.kBigInteger]. now apply fromString16_bounds. Qed.

Section DeriveSession.
Import TypeSRP Params.

Variables a_hex B_hex s_hex I x_hex : str.
Hypothesis Ha : isHex a_hex = true.
Hypothesis HB : isHex B_hex = true.
Hypothesis Hx : isHex x_hex = true.

Lemma guard_iff :
  equals (mod_ (fromHex B_hex) N) ZERO = true <->
  kBigInteger (fromHex B_hex) mod kBigInteger N = 0.
Proof.
  unfold equals. pose proof N_ge_2.
  rewrite value_mod by (try apply value_fromHex_nonneg; auto; lia).
  apply Z.eqb_eq.
Qed.

Lemma deriveSession_invalid :
  kBigInteger (fromHex B_hex) mod kBigInteger N = 0 ->
  SRPClient.deriveSession a_hex B_hex s_hex I x_hex =
  Throw (Error (lit "Server sent an invalid public ephemeral")).
Proof.
  intros H0. apply guard_iff in H0. unfold SRPClient.deriveSession.
  rewrite H0. reflexivity.
Qed.

Lemma deriveSession_valid :
  kBigInteger (fromHex B_hex) mod kBigInteger N <> 0 ->
  SRPClient.deriveSession a_hex B_hex s_hex I x_hex =
  Ok (sessionFormula a_hex B_hex s_hex I x_hex).
Proof.
  intros Hne.
  assert (Hg : equals (mod_ (fromHex B_hex) N) ZERO = false).
  { destruct (equals (mod_ (fromHex B_hex) N) ZERO) eqn:E; [| reflexivity].
    apply guard_iff in E. contradiction. }
  pose proof (value_fromHex_nonneg a_hex Ha) as Ha0.
  pose proof (value_fromHex_nonneg B_hex HB) as HB0.
  pose proof (value_fromHex_nonneg x_hex Hx) as Hx0.
  pose proof N_ge_2 as HN. pose proof k_bounds as [Hk0 _].
  assert (Hg0 : 0 <= kBigInteger g) by (rewrite g_value; lia).
  unfold SRPClient.deriveSession. rewrite Hg.
  rewrite (modPow_correct g (fromHex a_hex) N) by assumption.
  rewrite bind_Ok, hash2, bind_Ok.
  rewrite (modPow_correct g (fromHex x_hex) N) by assumption.
  rewrite bind_Ok.
  match goal with |- context [Hof [HInt ?A; HInt (fromHex B_hex)]] =>
    pose proof (Hof_bounds [HInt A; HInt (fromHex B_hex)]) as [Hu0 _] end.
  pose proof (Z.mod_pos_bound (kBigInteger g ^ kBigInteger (fromHex x_hex)) (kBigInteger N)
                ltac:(lia)) as Hgx.
  pose proof (Z.mod_pos_bound
                (kBigInteger k * (kBigInteger g ^ kBigInteger (fromHex x_hex) mod kBigInteger N))
                (kBigInteger N) ltac:(lia)) as Hkgx.
  rewrite modPow_correct.
  - rewrite bind_Ok.
    rewrite value_mod, value_subtract, value_add, value_mod, value_multiply,
      value_fromBigInt.
    + rewrite value_add, value_multiply.
      rewrite Z.mul_mod_idemp_r by lia.
      rewrite hash1, bind_Ok, hash1, bind_Ok, hash1, bind_Ok, hash1s, bind_Ok,
        hash6, bind_Ok.
      reflexivity.
    + rewrite value_multiply, value_fromBigInt. nia.
    + lia.
    + rewrite value_subtract, value_add, value_mod, value_multiply, value_fromBigInt.
      * lia.
      * rewrite value_multiply, value_fromBigInt. nia.
      * lia.
    + lia.
  - rewrite value_mod.
    + apply Z.mod_pos_bound. lia.
    + rewrite value_subtract, value_add, value_mod, value_multiply, value_fromBigInt.
      * lia.
      * rewrite value_multiply, value_fromBigInt. nia.
      * lia.
    + lia.
  - rewrite value_add, value_multiply. nia.
  - exact HN.
Qed.

End DeriveSession.

(** ** Digits two at a time *)

Lemma pair_ind {A} (P : list A -> Prop) :
  P [] -> (forall x, P [x]) -> (forall x y l, P l -> P (x :: y :: l)) ->
  forall l, P l.
Proof.
  intros H0 H1 H2 l.
  enough (P l /\ forall x, P (x :: l)) by tauto.
  induction l as [| y l [IH1 IH2]]; split; auto.
Qed.

Lemma parseInt16_digit c rest : isHexDigit c = true ->
  TypeSRP.parseInt16 (c :: rest) = TypeSRP.parseDigits16 (c :: rest) None.
Proof.
  intros H; each_ascii c; vm_compute in H; try discriminate H; reflexivity.
Qed.

Lemma bytesOfPairs_hexDecode hex : isHex hex = true ->
  TypeSRP.bytesOfPairs hex = hexDecode hex.
Proof.
  induction hex as [| c | c1 c2 rest IH] using pair_ind; intros Hh; try reflexivity.
  simpl in Hh. apply andb_true_iff in Hh as [H1 Hh]. apply andb_true_iff in Hh as [H2 Hr].
  cbn [TypeSRP.bytesOfPairs hexDecode].
  rewrite (parseInt16_digit c1 [c2] H1). cbn [TypeSRP.parseDigits16].
  rewrite (isHexDigit_digitOf c1 H1), (isHexDigit_digitOf c2 H2).
  rewrite (IH Hr). f_equal. cbn [TypeSRP.toUint8].
  pose proof (validDigits_digitOf [c1; c2]) as V. simpl in V.
  inversion V as [| ? ? Hd1 V']; inversion V' as [| ? ? Hd2 _]; subst.
  rewrite Z.mod_small; lia.
Qed.

Lemma hexDecode_valid hex : validBytes (hexDecode hex).
Proof.
  induction hex as [| c | c1 c2 rest IH] using pair_ind; try constructor.
  cbn [hexDecode].
  destruct (hexval c1) as [d1 |] eqn:E1; [| constructor].
  destruct (hexval c2) as [d2 |] eqn:E2; [| constructor].
  constructor; [| exact IH].
  apply hexval_range in E1, E2. lia.
Qed.

Lemma hexDecode_length hex : isHex hex = true -> (length hex mod 2 = 0)%nat ->
  (length (hexDecode hex) + length (hexDecode hex) = length hex)%nat.
Proof.
  induction hex as [| c | c1 c2 rest IH] using pair_ind; intros Hh He.
  - reflexivity.
  - discriminate He.
  - simpl in Hh. apply andb_true_iff in Hh as [H1 Hh]. apply andb_true_iff in Hh as [H2 Hr].
    cbn [hexDecode].
    rewrite (isHexDigit_digitOf c1 H1), (isHexDigit_digitOf c2 H2).
    cbn [length]. rewrite <- IH; [lia | assumption |].
    change (length (c1 :: c2 :: rest)) with (2 + length rest)%nat in He.
    rewrite Nat.add_comm in He.
    replace (length rest + 2)%nat with (length rest + 1 * 2)%nat in He by lia.
    rewrite Nat.Div0.mod_add in He. exact He.
Qed.

Lemma hexDecode_value hex : isHex hex = true -> (length hex mod 2 = 0)%nat ->
  bval (hexDecode hex) = dval (map digitOf hex).
Proof.
  induction hex as [| c | c1 c2 rest IH] using pair_ind; intros Hh He.
  - reflexivity.
  - discriminate He.
  - assert (He' : (length rest mod 2 = 0)%nat).
    { change (length (c1 :: c2 :: rest)) with (2 + length rest)%nat in He.
      rewrite Nat.add_comm in He.
      replace (length rest + 2)%nat with (length rest + 1 * 2)%nat in He by lia.
      rewrite Nat.Div0.mod_add in He. exact He. }
    pose proof (hexDecode_length (c1 :: c2 :: rest) Hh He) as HL.
    simpl in Hh. apply andb_true_iff in Hh as [H1 Hh]. apply andb_true_iff in Hh as [H2 Hr].
    pose proof (hexDecode_length rest Hr He') as HLr.
    cbn [hexDecode] in *.
    rewrite (isHexDigit_digitOf c1 H1), (isHexDigit_digitOf c2 H2) in *.
    cbn [bval map dval length]. rewrite (IH Hr He').
    rewrite !length_map. rewrite <- HLr.
    rewrite pow16_succ, pow16_double. lia.
Qed.


Lemma isHex_map_int2char ds : validDigits ds -> isHex (map int2char ds) = true.
Proof.
  induction 1 as [| d rest Hd _ IH]; [reflexivity |].
  simpl. unfold isHexDigit. rewrite hexval_int2char by assumption. exact IH.
Qed.

Lemma map_digitOf_int2char ds : validDigits ds -> map digitOf (map int2char ds) = ds.
Proof.
  induction 1 as [| d rest Hd _ IH]; [reflexivity |].
  simpl. rewrite digitOf_int2char by assumption. f_equal. exact IH.
Qed.

(** ** toUint8Array *)


(** The digits [toString16] writes for a non-negative integer: at least one,
    and no leading zero unless the integer is 0. *)
Lemma toString16_digits v : 0 <= v ->
  exists D, validDigits D /\ dval D = v /\ (1 <= length D)%nat /\
    BigInteger.toString16 v = map int2char D /\
    (0 < v -> 16 ^ (Z.of_nat (length D) - 1) <= v) /\
    (v = 0 -> D = [0]).
Proof.
  intros Hv. destruct (toString16_nonneg v Hv) as (ds & V & E & Hs & Ht).
  destruct ds as [| d rest].
  - exists [0]. simpl in E. subst v. split_all.
    + constructor; [lia | constructor].
    + reflexivity.
    + simpl. lia.
    + exact Ht.
    + lia.
    + reflexivity.
  - exists (d :: rest). pose proof (dval_leading d rest V Hs) as Hlow.
    rewrite E in Hlow. split_all; auto.
    + simpl. lia.
    + intros _. cbn [length]. rewrite Nat2Z.inj_succ.
      replace (Z.succ (Z.of_nat (length rest)) - 1) with (Z.of_nat (length rest)) by lia.
      exact Hlow.
    + intros ->. pose proof (pow16_pos (length rest)). lia.
Qed.

Lemma even_pad_cases (n : nat) :
  ((n mod 2 =? 0)%nat = true /\ (n mod 2 = 0)%nat) \/
  ((n mod 2 =? 0)%nat = false /\ (S n mod 2 = 0)%nat).
Proof.
  destruct (Nat.eqb_spec (n mod 2) 0) as [E | E]; [left; auto | right; split; auto].
  pose proof (Nat.mod_upper_bound n 2 ltac:(lia)).
  pose proof (Nat.div_mod_eq n 2).
  pose proof (Nat.div_mod_eq (S n) 2).
  pose proof (Nat.mod_upper_bound (S n) 2 ltac:(lia)).
  lia.
Qed.

Section ToUint8Array.
Variable this : TypeSRP.t.
Local Abbreviation v := (TypeSRP.kBigInteger this).
Hypothesis Hv : 0 <= v.

Lemma toUint8Array_shape :
  exists D', validDigits D' /\ dval D' = v /\ (length D' mod 2 = 0)%nat /\
    evenHex (BigInteger.toString16 v) = map int2char D' /\
    (0 < v -> 16 ^ (Z.of_nat (length D') - 2) <= v) /\
    (v = 0 -> D' = [0; 0]).
Proof.
  destruct (toString16_digits v Hv) as (D & V & E & HL & Ht & Hlow & Hz).
  unfold evenHex. rewrite Ht, length_map.
  destruct (even_pad_cases (length D)) as [[-> Hm] | [-> Hm]].
  - exists D. split_all.
    + exact V.
    + exact E.
    + exact Hm.
    + reflexivity.
    + intros Hp. specialize (Hlow Hp).
      eapply Z.le_trans; [| exact Hlow].
      apply Z.pow_le_mono_r; lia.
    + intros H0. rewrite (Hz H0) in Hm. discriminate Hm.
  - exists (0 :: D). split_all.
    + constructor; [lia | assumption].
    + cbn [dval]. lia.
    + exact Hm.
    + reflexivity.
    + intros Hp. specialize (Hlow Hp). cbn [length]. rewrite Nat2Z.inj_succ.
      replace (Z.succ (Z.of_nat (length D)) - 2) with (Z.of_nat (length D) - 1) by lia.
      exact Hlow.
    + intros H0. now rewrite (Hz H0).
Qed.

Lemma toUint8Array_hexDecode :
  TypeSRP.toUint8Array this = hexDecode (evenHex (BigInteger.toString16 v)).
Proof.
  destruct toUint8Array_shape as (D' & V & _ & _ & Ht & _).
  change (TypeSRP.toUint8Array this)
    with (TypeSRP.bytesOfPairs (evenHex (BigInteger.toString16 v))).
  apply bytesOfPairs_hexDecode. rewrite Ht. now apply isHex_map_int2char.
Qed.

Lemma toUint8Array_value : bval (TypeSRP.toUint8Array this) = v.
Proof.
  rewrite toUint8Array_hexDecode.
  destruct toUint8Array_shape as (D' & V & E & Hm & Ht & _).
  rewrite Ht, hexDecode_value.
  - now rewrite map_digitOf_int2char.
  - now apply isHex_map_int2char.
  - now rewrite length_map.
Qed.

Lemma toUint8Array_length : 0 < v ->
  Z.of_nat (length (TypeSRP.toUint8Array this)) = (bitlen v + 7) / 8.
Proof.
  intros Hp. rewrite toUint8Array_hexDecode.
  destruct toUint8Array_shape as (D' & V & E & Hm & Ht & Hlow & _).
  specialize (Hlow Hp).
  pose proof (hexDecode_length (map int2char D') (isHex_map_int2char D' V)) as HL.
  rewrite length_map in HL. specialize (HL Hm). rewrite <- Ht in HL.
  pose proof (dval_bounds D' V) as [_ Hhi]. rewrite E in Hhi.
  set (n := length (hexDecode (evenHex (BigInteger.toString16 v)))) in *.
  rewrite <- HL in Hlow, Hhi. rewrite Nat2Z.inj_add in Hlow, Hhi.
  assert (Hn : 1 <= Z.of_nat n).
  { destruct n; [| lia]. simpl in Hhi. lia. }
  assert (Hb : 8 * (Z.of_nat n - 1) <= Z.log2 v < 8 * Z.of_nat n).
  { split.
    - apply Z.log2_le_pow2; [lia |].
      eapply Z.le_trans; [| exact Hlow].
      rewrite <- pow2_4 by lia. apply Z.pow_le_mono_r; lia.
    - apply Z.log2_lt_pow2; [lia |].
      rewrite <- pow2_4 in Hhi by lia.
      replace (8 * Z.of_nat n) with (4 * (Z.of_nat n + Z.of_nat n)) by lia. exact Hhi. }
  unfold bitlen. replace (v =? 0) with false by (symmetry; apply Z.eqb_neq; lia).
  apply (Z.div_unique _ _ _ (Z.log2 v + 1 + 7 - 8 * Z.of_nat n)); lia.
Qed.

Lemma toUint8Array_zero : v = 0 -> TypeSRP.toUint8Array this = [0].
Proof.
  intros H0. rewrite toUint8Array_hexDecode.
  destruct toUint8Array_shape as (D' & _ & _ & _ & Ht & _ & Hz).
  rewrite Ht, (Hz H0). reflexivity.
Qed.

End ToUint8Array.

(** ** More on the hash and on hex strings *)




Lemma isHex_app s1 s2 : isHex s1 = true -> isHex s2 = true -> isHex (s1 ++ s2) = true.
Proof. unfold isHex. intros H1 H2. rewrite forallb_app. now rewrite H1, H2. Qed.


Lemma absorb_app args1 args2 :
  Sha256.absorb (args1 ++ args2) =
  (bs1 <- Sha256.absorb args1 ;; bs2 <- Sha256.absorb args2 ;; Ok (bs1 ++ bs2)).
Proof.
  induction args1 as [| arg rest IH].
  - cbn [app Sha256.absorb bind]. destruct (Sha256.absorb args2); reflexivity.
  - cbn [app Sha256.absorb]. rewrite IH.
    destruct (Sha256.update arg) as [bs | e]; cbn [bind]; [| reflexivity].
    destruct (Sha256.absorb rest) as [bs1 | e]; cbn [bind]; [| reflexivity].
    destruct (Sha256.absorb args2) as [bs2 | e]; cbn [bind]; [| reflexivity].
    now rewrite app_assoc.
Qed.

Lemma absorb_rejects args : forallb accepted args = false ->
  Sha256.absorb args = Throw BadArgumentKind.
Proof.
  induction args as [| arg rest IH]; intros H; [discriminate H |].
  cbn [forallb] in H. cbn [Sha256.absorb].
  destruct arg; cbn [accepted andb] in H; cbn [Sha256.update bind]; try reflexivity;
    rewrite (IH H); reflexivity.
Qed.

Lemma hash_rejects args : forallb accepted args = false ->
  Params.H args = Throw BadArgumentKind.
Proof.
  intros H. unfold Params.H, Sha256.hash. now rewrite absorb_rejects.
Qed.

Lemma absorb_accepts args : forallb accepted args = true ->
  exists hs, args = map asValue hs.
Proof.
  induction args as [| arg rest IH]; intros H.
  - exists []. reflexivity.
  - cbn [forallb] in H. apply andb_true_iff in H as [Ha Hr].
    destruct (IH Hr) as [hs ->].
    destruct arg; try discriminate Ha.
    + exists (HInt v :: hs). reflexivity.
    + exists (HStr s :: hs). reflexivity.
Qed.

(** ** Hex strings of values *)

Lemma padStart_digits D n :
  padStart (map int2char D) n "0"%char = map int2char (repeat 0 (n - length D) ++ D).
Proof.
  unfold padStart. rewrite length_map, map_app, map_repeat, int2char_zero.
  destruct (Nat.leb_spec n (length D)).
  - replace (n - length D)%nat with 0%nat by lia. reflexivity.
  - reflexivity.
Qed.

(** [toHex] of a value >= 0 is a string of digits, one at least, that denote
    the value. *)
Lemma toHex_digits (this : TypeSRP.t) : 0 <= TypeSRP.kBigInteger this ->
  exists D, validDigits D /\ (1 <= length D)%nat /\
    dval D = TypeSRP.kBigInteger this /\ TypeSRP.toHex this = map int2char D.
Proof.
  intros Hv.
  destruct (toString16_digits _ Hv) as (D & V & E & HL & Ht & _ & _).
  unfold TypeSRP.toHex. rewrite Ht. destruct (TypeSRP.kHexLength this) as [n |].
  - exists (repeat 0 (n - length D) ++ D). split_all.
    + apply validDigits_app; [apply validDigits_repeat0 | exact V].
    + rewrite length_app. lia.
    + now rewrite dval_repeat0_app.
    + apply padStart_digits.
  - exists D. split_all; auto.
Qed.

Lemma toLowerCase1_int2char d : 0 <= d < 16 -> toLowerCase1 (int2char d) = int2char d.
Proof.
  intros H. apply digit_cases in H. simpl in H.
  repeat (destruct H as [<- | H]; [reflexivity |]). destruct H.
Qed.

Lemma toLowerCase_digits D : validDigits D -> toLowerCase (map int2char D) = map int2char D.
Proof.
  induction 1 as [| d rest Hd _ IH]; [reflexivity |].
  cbn [map toLowerCase]. rewrite toLowerCase1_int2char by assumption.
  f_equal. exact IH.
Qed.

Lemma fromString16_digits D : validDigits D ->
  BigInteger.fromString16 (map int2char D) = dval D.
Proof.
  intros V. rewrite fromString16_hex by now apply isHex_map_int2char.
  now rewrite map_digitOf_int2char.
Qed.

Lemma toHex_roundtrip (this : TypeSRP.t) : 0 <= TypeSRP.kBigInteger this ->
  isHex (TypeSRP.toHex this) = true /\
  TypeSRP.toHex this <> [] /\
  TypeSRP.kBigInteger (TypeSRP.fromHex (TypeSRP.toHex this)) = TypeSRP.kBigInteger this /\
  TypeSRP.toHex (TypeSRP.fromHex (TypeSRP.toHex this)) = TypeSRP.toHex this.
Proof.
  intros Hv. destruct (toHex_digits this Hv) as (D & V & HL & E & Ht).
  assert (Hne : TypeSRP.toHex this <> []).
  { rewrite Ht. destruct D; [simpl in HL; lia | discriminate]. }
  assert (Hh : isHex (TypeSRP.toHex this) = true)
    by (rewrite Ht; now apply isHex_map_int2char).
  split_all; auto.
  - unfold TypeSRP.fromHex. cbn [TypeSRP.kBigInteger].
    rewrite Ht, fromString16_digits by assumption. exact E.
  - rewrite toHex_fromHex by assumption. rewrite Ht. now apply toLowerCase_digits.
Qed.

(** The hex string of a digest: its 64 digits. *)
Lemma toHex_Hof args :
  TypeSRP.toHex (Hof args) =
  map int2char (BigInteger.digitsFrom 64 (TypeSRP.kBigInteger (Hof args))).
Proof.
  pose proof (Hof_bounds args) as B.
  unfold TypeSRP.toHex, Hof in *. cbn [TypeSRP.kBigInteger TypeSRP.kHexLength] in *.
  apply padStart_toString16; [| lia].
  change (16 ^ Z.of_nat 64) with (2 ^ 256). exact B.
Qed.

Lemma toHex_Hof_shape args :
  length (TypeSRP.toHex (Hof args)) = 64%nat /\
  isHex (TypeSRP.toHex (Hof args)) = true /\
  toLowerCase (TypeSRP.toHex (Hof args)) = TypeSRP.toHex (Hof args).
Proof.
  rewrite toHex_Hof. split_all.
  - now rewrite length_map, digitsFrom_length.
  - apply isHex_map_int2char, digitsFrom_valid.
  - apply toLowerCase_digits, digitsFrom_valid.
Qed.

Lemma modPow_value (this e m : TypeSRP.t) :
  0 <= TypeSRP.kBigInteger this -> 0 <= TypeSRP.kBigInteger e ->
  2 <= TypeSRP.kBigInteger m ->
  exists p, TypeSRP.modPow this (TypeSRP.ofTypeSRP e) (TypeSRP.ofTypeSRP m) = Ok p /\
    p = TypeSRP.mk (TypeSRP.kBigInteger this ^ TypeSRP.kBigInteger e
                    mod TypeSRP.kBigInteger m) None /\
    0 <= TypeSRP.kBigInteger p < TypeSRP.kBigInteger m.
Proof.
  intros. eexists. split; [now apply modPow_correct |]. split; [reflexivity |].
  cbn [TypeSRP.kBigInteger TypeSRP.fromBigInt]. apply Z.mod_pos_bound. lia.
Qed.

(** ** The hash of the specification and the hash of the code *)

Lemma toLowerCase_hexEncode bs : validBytes bs -> toLowerCase (hexEncode bs) = hexEncode bs.
Proof.
  induction 1 as [| b rest Hb _ IH]; [reflexivity |].
  destruct (byte_digits b Hb) as [H1 H2].
  cbn [hexEncode toLowerCase map].
  rewrite !toLowerCase1_int2char by assumption. f_equal. f_equal. exact IH.
Qed.

(** The hex string of a digest is the hex of its bytes. *)
Lemma toHex_digest bs : validBytes bs -> length bs = 32%nat ->
  TypeSRP.toHex (TypeSRP.mk (bval bs) (Some 64%nat)) = hexEncode bs.
Proof.
  intros V L. pose proof (bval_bounds bs V) as B. rewrite L in B.
  unfold TypeSRP.toHex. cbn [TypeSRP.kBigInteger TypeSRP.kHexLength].
  rewrite padStart_toString16 by (change (16 ^ Z.of_nat 64) with (256 ^ Z.of_nat 32); lia).
  rewrite (digitsFrom_unique 64 (bval bs) (map digitOf (hexEncode bs))).
  - rewrite map_int2char_digitOf by now apply hexEncode_isHex.
    now apply toLowerCase_hexEncode.
  - apply validDigits_digitOf.
  - rewrite length_map, hexEncode_length, L. reflexivity.
  - now apply hexEncode_digits.
Qed.

Lemma toHex_Hof_hexEncode args :
  TypeSRP.toHex (Hof args) = hexEncode (SHA256.sha256 (concat (map absorbed args))).
Proof. apply toHex_digest; [apply sha256_valid | apply sha256_length]. Qed.

Lemma specAbsorbed_even h : evenArg h -> specAbsorbed h = absorbed h.
Proof.
  destruct h as [v | s]; [| reflexivity]. cbn [evenArg specAbsorbed absorbed].
  intros E. unfold evenHex. rewrite E. reflexivity.
Qed.

Lemma specDigest_even args : Forall evenArg args ->
  specDigest args = SHA256.sha256 (concat (map absorbed args)).
Proof.
  intros F. unfold specDigest. do 2 f_equal.
  induction F as [| h rest Hh _ IH]; [reflexivity |].
  cbn [map]. now rewrite specAbsorbed_even, IH.
Qed.

Lemma specH_even args : Forall evenArg args -> specH args = Hof args.
Proof. intros F. unfold specH, Hof. now rewrite specDigest_even. Qed.

Lemma evenArg_Hof args : evenArg (HInt (Hof args)).
Proof. cbn [evenArg]. now rewrite (proj1 (toHex_Hof_shape args)). Qed.

Lemma evenArg_N : evenArg (HInt Params.N).
Proof. vm_compute. reflexivity. Qed.

Lemma evenArg_g : evenArg (HInt Params.g).
Proof. vm_compute. reflexivity. Qed.

Lemma evenArg_fromHex s : isHex s = true -> s <> [] -> (length s mod 2 = 0)%nat ->
  evenArg (HInt (TypeSRP.fromHex s)).
Proof.
  intros Hs Hne He. cbn [evenArg]. rewrite toHex_fromHex by assumption.
  unfold toLowerCase. now rewrite length_map.
Qed.

Lemma lxor_bounds a b n : 0 < n -> 0 <= a < 2 ^ n -> 0 <= b < 2 ^ n ->
  0 <= Z.lxor a b < 2 ^ n.
Proof.
  intros Hn Ha Hb.
  assert (H0 : 0 <= Z.lxor a b) by (apply Z.lxor_nonneg; lia).
  split; [exact H0 |].
  destruct (Z.eq_dec (Z.lxor a b) 0) as [E | E]; [rewrite E; lia |].
  apply Z.log2_lt_pow2; [lia |].
  pose proof (Z.log2_lxor a b ltac:(lia) ltac:(lia)) as L.
  assert (La : Z.log2 a < n).
  { destruct (Z.eq_dec a 0) as [-> | ]; [change (Z.log2 0) with 0; lia |].
    apply Z.log2_lt_pow2; lia. }
  assert (Lb : Z.log2 b < n).
  { destruct (Z.eq_dec b 0) as [-> | ]; [change (Z.log2 0) with 0; lia |].
    apply Z.log2_lt_pow2; lia. }
  lia.
Qed.

Lemma k_Hof : Params.k = Hof [HInt Params.N; HInt Params.g].
Proof.
  unfold Params.k. rewrite digest_eq. unfold Hof, Sha256.bufferOf.
  cbn [map concat absorbed]. now rewrite app_nil_r.
Qed.

Lemma specK_k : specK = TypeSRP.kBigInteger Params.k.
Proof.
  unfold specK. rewrite specH_even, k_Hof; [reflexivity |].
  apply Forall_cons; [apply evenArg_N |]. apply Forall_cons; [apply evenArg_g |].
  apply Forall_nil.
Qed.

Lemma xor_Hof args1 args2 :
  TypeSRP.xor (Hof args1) (Hof args2) =
  TypeSRP.mk (Z.lxor (TypeSRP.kBigInteger (Hof args1)) (TypeSRP.kBigInteger (Hof args2)))
             (Some 64%nat).
Proof. reflexivity. Qed.

Lemma evenArg_xor args1 args2 : evenArg (HInt (TypeSRP.xor (Hof args1) (Hof args2))).
Proof.
  rewrite xor_Hof. cbn [evenArg]. unfold TypeSRP.toHex.
  cbn [TypeSRP.kBigInteger TypeSRP.kHexLength].
  pose proof (lxor_bounds _ _ 256 ltac:(lia) (Hof_bounds args1) (Hof_bounds args2)) as B.
  rewrite padStart_toString16 by (change (16 ^ Z.of_nat 64) with (2 ^ 256); lia).
  now rewrite length_map, digitsFrom_length.
Qed.

Lemma Forall1 {A} (P : A -> Prop) a : P a -> Forall P [a].
Proof. intros H. apply Forall_cons; [exact H | apply Forall_nil]. Qed.

(** Where every hex encoding absorbed has an even number of digits,
    [deriveSession] returns the session of the specification. *)
Section SpecSession.
Import TypeSRP Params.

Variables a_hex B_hex s_hex I x_hex : str.
Hypothesis Ha : isHex a_hex = true.
Hypothesis HB : isHex B_hex = true.
Hypothesis Hs : isHex s_hex = true.
Hypothesis Hx : isHex x_hex = true.
Hypothesis HBN : kBigInteger (fromHex B_hex) mod kBigInteger N <> 0.
Hypothesis HBe : (length B_hex mod 2 = 0)%nat.
Hypothesis Hs0 : s_hex <> [].
Hypothesis Hse : (length s_hex mod 2 = 0)%nat.
Hypothesis HAe : evenArg (HInt (specA a_hex)).
Hypothesis HSe : evenArg (HInt (specS a_hex B_hex x_hex)).

Lemma even_B : evenArg (HInt (fromHex B_hex)).
Proof.
  apply evenArg_fromHex; auto. intros ->. apply HBN. reflexivity.
Qed.

Lemma specU_Hof :
  specU a_hex B_hex = kBigInteger (Hof [HInt (specA a_hex); HInt (fromHex B_hex)]).
Proof.
  unfold specU. rewrite specH_even; [reflexivity |].
  apply Forall_cons; [exact HAe |]. apply Forall1, even_B.
Qed.

Lemma sessionFormula_spec :
  sessionFormula a_hex B_hex s_hex I x_hex = specSession a_hex B_hex s_hex I x_hex.
Proof.
  assert (EA : fromBigInt (kBigInteger g ^ kBigInteger (fromHex a_hex) mod kBigInteger N)
               = specA a_hex) by reflexivity.
  assert (ES : fromBigInt
                 (((kBigInteger (fromHex B_hex) + kBigInteger N
                    - (kBigInteger k * kBigInteger g ^ kBigInteger (fromHex x_hex))
                      mod kBigInteger N) mod kBigInteger N)
                  ^ (kBigInteger (fromHex a_hex) + specU a_hex B_hex * kBigInteger (fromHex x_hex))
                  mod kBigInteger N) = specS a_hex B_hex x_hex).
  { unfold specS. rewrite specK_k. reflexivity. }
  unfold sessionFormula. cbv zeta. rewrite EA, <- specU_Hof, ES.
  rewrite !toHex_Hof_hexEncode.
  unfold specSession. rewrite (specDigest_even [HInt (specS a_hex B_hex x_hex)])
    by (apply Forall1, HSe).
  apply (f_equal (SRPClient.mkSession _)).
  assert (EM : specM a_hex B_hex s_hex I x_hex =
    [HInt (xor (Hof [HInt N]) (Hof [HInt g])); HInt (Hof [HStr I]);
     HInt (fromHex s_hex); HInt (specA a_hex); HInt (fromHex B_hex);
     HInt (Hof [HInt (specS a_hex B_hex x_hex)])]).
  { unfold specM. rewrite xor_Hof.
    rewrite (specH_even [HInt N]) by (apply Forall1, evenArg_N).
    rewrite (specH_even [HInt g]) by (apply Forall1, evenArg_g).
    rewrite (specH_even [HStr I]) by (apply Forall1; exact Logic.I).
    rewrite (specH_even [HInt (specS a_hex B_hex x_hex)]) by (apply Forall1, HSe).
    reflexivity. }
  rewrite EM. rewrite specDigest_even; [reflexivity |].
  apply Forall_cons; [apply evenArg_xor |].
  apply Forall_cons; [apply evenArg_Hof |].
  apply Forall_cons; [now apply evenArg_fromHex |].
  apply Forall_cons; [exact HAe |].
  apply Forall_cons; [apply even_B |].
  apply Forall1, evenArg_Hof.
Qed.

Lemma deriveSession_spec :
  SRPClient.deriveSession a_hex B_hex s_hex I x_hex =
  Ok (specSession a_hex B_hex s_hex I x_hex).
Proof.
  rewrite deriveSession_valid by assumption. now rewrite sessionFormula_spec.
Qed.

End SpecSession.

(** ** Reorderings and the bytes of a concatenation *)






(* ================================================================= *)
(** * The properties of the specification *)

(** ** Sanity checks of the embedding *)

Example sha256_constants :
  length SHA256.K = 64%nat /\
  firstn 2 SHA256.K = [0x428a2f98; 0x71374491] /\
  SHA256.ha SHA256.H0 = 0x6a09e667 /\ SHA256.hh SHA256.H0 = 0x5be0cd19.
Proof. vm_compute. repeat split. Qed.

Example sha256_empty :
  hexEncode (SHA256.sha256 []) =
  lit "e3b0c44298fc1c149afbf4c8996fb92427ae41e4649b934ca495991b7852b855".
Proof. vm_compute. reflexivity. Qed.

Example sha256_abc :
  hexEncode (SHA256.sha256 (utf8 (lit "abc"))) =
  lit "ba7816bf8f01cfea414140de5dae2223b00361a396177a9cb410ff61f20015ad".
Proof. vm_compute. reflexivity. Qed.

Example sha256_two_blocks :
  hexEncode (SHA256.sha256 (repeat 97 64)) =
  lit "ffe054fe7ae0cb6dc65c3af9b61d5209f439851db43d0ba5997337df154668eb".
Proof. vm_compute. reflexivity. Qed.

Example toHex_N :
  TypeSRP.toHex Params.N = toLowerCase (stripSpaces Params.largeSafePrime).
Proof. vm_compute. reflexivity. Qed.

Example modPow_small :
  TypeSRP.modPow (TypeSRP.fromHex (lit "05")) (TypeSRP.ofNative 117) (TypeSRP.ofNative 1009)
  = Ok (TypeSRP.fromBigInt (5 ^ 117 mod 1009)).
Proof. vm_compute. reflexivity. Qed.

Example toUint8Array_negative :
  TypeSRP.toUint8Array (TypeSRP.fromBigInt (- 0xabc)) = [246; 0xbc].
Proof. vm_compute. reflexivity. Qed.

(** ** C1 *)

(** C1 (the code departs from it).  With a = 01, B = 02, s = 03, I = alice and
    x = 00, B mod N is not 0 and A = g^a mod N = 5, whose hex encoding "5" has
    one digit: the hash of the code is fed no byte for A, where the even-length
    encoding "05" has the byte 05, the byte [toUint8Array] gives.  S has 768
    digits and the key [deriveSession] returns is K = H(S) in hex; the proof
    it returns is not the hex of M = H(H(N) xor H(g), H(I), s, A, B, K). *)
Theorem C1_deriveSession_odd_ephemeral :
  let a := lit "01" in
  let B := lit "02" in
  let s := lit "03" in
  let I := lit "alice" in
  let x := lit "00" in
  TypeSRP.kBigInteger (TypeSRP.fromHex B) mod TypeSRP.kBigInteger Params.N <> 0 /\
  TypeSRP.toHex (specA a) = lit "5" /\
  Sha256.bufferOf (specA a) = [] /\
  specAbsorbed (HInt (specA a)) = [5] /\
  TypeSRP.toUint8Array (specA a) = [5] /\
  SRPClient.deriveSession a B s I x =
    Ok (SRPClient.mkSession
          (lit "f7e112450ce40310dee91d2ce5fd858d3260ae8a6861ec91461fbc088cb95cd8")
          (lit "0a36fe3b62f0a9128cd7c811f8efe20c8fa860bfd919f5baa34b68912e78b62b")) /\
  specSession a B s I x =
    SRPClient.mkSession
      (lit "f7e112450ce40310dee91d2ce5fd858d3260ae8a6861ec91461fbc088cb95cd8")
      (lit "f330c7c774861bf6c8aa9308d5a33e86f2869315592001d7b2e979c79c38d41b") /\
  SRPClient.deriveSession a B s I x <> Ok (specSession a B s I x).
Proof.
  cbv zeta.
  assert (E1 : SRPClient.deriveSession (lit "01") (lit "02") (lit "03") (lit "alice") (lit "00") =
    Ok (SRPClient.mkSession
          (lit "f7e112450ce40310dee91d2ce5fd858d3260ae8a6861ec91461fbc088cb95cd8")
          (lit "0a36fe3b62f0a9128cd7c811f8efe20c8fa860bfd919f5baa34b68912e78b62b")))
    by (vm_compute; reflexivity).
  assert (E2 : specSession (lit "01") (lit "02") (lit "03") (lit "alice") (lit "00") =
    SRPClient.mkSession
      (lit "f7e112450ce40310dee91d2ce5fd858d3260ae8a6861ec91461fbc088cb95cd8")
      (lit "f330c7c774861bf6c8aa9308d5a33e86f2869315592001d7b2e979c79c38d41b"))
    by (vm_compute; reflexivity).
  split; [vm_compute; discriminate |].
  split; [vm_compute; reflexivity |].
  split; [vm_compute; reflexivity |].
  split; [vm_compute; reflexivity |].
  split; [vm_compute; reflexivity |].
  split; [exact E1 |]. split; [exact E2 |].
  rewrite E1, E2. intros E. apply (f_equal (fun r => match r with
    | Ok se => nth 0 (SRPClient.proof se) "0"%char | Throw _ => "0"%char end)) in E.
  vm_compute in E. discriminate.
Qed.

(** ** C2 *)

(** C2 (the code departs from it).  [hash] feeds the hash
    [Buffer.from(arg.toHex(), 'hex')]; for the TypeSRP of 0xabc, which
    carries no hex width, [toHex] is "abc" and the buffer is the single byte
    ab: the last digit is dropped, where the even-length hex encoding "0abc"
    has the bytes 0a bc; the digest returned is that of the byte ab. *)
Theorem C2_hash_drops_odd_digit :
  let v := TypeSRP.fromBigInt 0xabc in
  TypeSRP.toHex v = lit "abc" /\
  Sha256.absorb [Sha256.VTypeSRP v] = Ok [0xab] /\
  hexDecode (evenHex (TypeSRP.toHex v)) = [0x0a; 0xbc] /\
  Params.H [Sha256.VTypeSRP v] =
    Ok (TypeSRP.mk (bval (SHA256.sha256 [0xab])) (Some 64%nat)).
Proof.
  cbv zeta. split; [reflexivity |]. split; [reflexivity |]. split; [reflexivity |].
  rewrite hash1. reflexivity.
Qed.

(** ** C3 *)




(** ** C4 *)

(** C4.  [deriveSession] throws 'Server sent an invalid public ephemeral'
    exactly when B mod N = 0; the test comes before anything is computed, and
    no session is returned then. *)
Theorem C4_invalid_server_ephemeral (a_hex B_hex s_hex I x_hex : str) :
  isHex a_hex = true -> isHex B_hex = true -> isHex s_hex = true ->
  isHex x_hex = true ->
  (SRPClient.deriveSession a_hex B_hex s_hex I x_hex = Throw InvalidServerEphemeral
   <-> TypeSRP.kBigInteger (TypeSRP.fromHex B_hex) mod TypeSRP.kBigInteger Params.N = 0) /\
  (TypeSRP.kBigInteger (TypeSRP.fromHex B_hex) mod TypeSRP.kBigInteger Params.N = 0 ->
   forall session, SRPClient.deriveSession a_hex B_hex s_hex I x_hex <> Ok session).
Proof.
  intros Ha HB _ Hx. split; [split |].
  - intros Hthrow.
    destruct (Z.eq_dec (TypeSRP.kBigInteger (TypeSRP.fromHex B_hex)
                        mod TypeSRP.kBigInteger Params.N) 0) as [E | E];
      [exact E |].
    rewrite (deriveSession_valid a_hex B_hex s_hex I x_hex Ha HB Hx E) in Hthrow.
    discriminate Hthrow.
  - intros E. now apply deriveSession_invalid.
  - intros E session.
    rewrite (deriveSession_invalid a_hex B_hex s_hex I x_hex HB E). discriminate.
Qed.

Lemma C4_invalid_server_ephemeral_witness :
  SRPClient.deriveSession (lit "0a") (lit "0000") (lit "0b") (lit "alice") (lit "0c") =
  Throw InvalidServerEphemeral.
Proof.
  apply (C4_invalid_server_ephemeral (lit "0a") (lit "0000") (lit "0b") (lit "alice") (lit "0c"));
    reflexivity.
Defined.

(** ** C5 *)



(** ** C6 *)

(** C6 (the code departs from it).  With exponent 0 the loop of
    [modularExponentiation] is not entered and the initial 1 is returned
    without reduction: for the modulus 1, [modPow] gives 1, which is neither
    b^0 mod 1 = 0 nor in [0, 1).  This holds for every base and for both
    kinds of argument. *)
Theorem C6_modPow_exponent_zero_modulus_one (this : TypeSRP.t) :
  TypeSRP.modPow this (TypeSRP.ofNative 0) (TypeSRP.ofNative 1) =
    Ok (TypeSRP.fromBigInt 1) /\
  TypeSRP.modPow this (TypeSRP.ofTypeSRP TypeSRP.ZERO) (TypeSRP.ofTypeSRP TypeSRP.ONE) =
    Ok (TypeSRP.fromBigInt 1) /\
  TypeSRP.kBigInteger this ^ 0 mod 1 = 0 /\
  ~ (0 <= 1 < 1).
Proof.
  split; [reflexivity |]. split; [reflexivity |]. split.
  - apply Z.mod_1_r.
  - lia.
Qed.

(** ** C7 *)

(** C7 (as amended).  For a hex string s that is not empty, [fromHex] records
    the width length(s) and [toHex] gives s back in lowercase, leading zeros
    included. *)
Theorem C7_fromHex_toHex (s : str) :
  isHex s = true -> s <> [] ->
  TypeSRP.kHexLength (TypeSRP.fromHex s) = Some (length s) /\
  TypeSRP.toHex (TypeSRP.fromHex s) = toLowerCase s.
Proof.
  intros Hs Hne. split; [reflexivity |]. now apply toHex_fromHex.
Qed.

Lemma C7_fromHex_toHex_witness :
  TypeSRP.toHex (TypeSRP.fromHex (lit "00aB")) = toLowerCase (lit "00aB").
Proof.
  apply (C7_fromHex_toHex (lit "00aB")); [reflexivity | discriminate].
Defined.

(** The empty string is a hex string of even length; [fromHex] makes it 0
    with width 0 and [toHex] writes "0". *)
Lemma C7_counterexample :
  isHex (lit "") = true /\ (length (lit "") mod 2 = 0)%nat /\
  TypeSRP.toHex (TypeSRP.fromHex (lit "")) = lit "0" /\
  TypeSRP.toHex (TypeSRP.fromHex (lit "")) <> toLowerCase (lit "").
Proof.
  split; [reflexivity |]. split; [reflexivity |]. split; [reflexivity | discriminate].
Qed.

(** ** C8 *)

(** C8 (as amended).  [subtract], [divide] and [xor] carry the hex width of
    the left operand; [mod_] carries the hex width of the modulus; [add] and
    [multiply] carry none. *)
Theorem C8_hex_width (a b m : TypeSRP.t) :
  TypeSRP.kHexLength (TypeSRP.subtract a b) = TypeSRP.kHexLength a /\
  TypeSRP.kHexLength (TypeSRP.divide a b) = TypeSRP.kHexLength a /\
  TypeSRP.kHexLength (TypeSRP.xor a b) = TypeSRP.kHexLength a /\
  TypeSRP.kHexLength (TypeSRP.mod_ a m) = TypeSRP.kHexLength m /\
  TypeSRP.kHexLength (TypeSRP.add a b) = None /\
  TypeSRP.kHexLength (TypeSRP.multiply a b) = None.
Proof. repeat split. Qed.

(** 0a of width 2 modulo 0007 of width 4 is 3 with width 4. *)
Lemma C8_counterexample :
  TypeSRP.kHexLength (TypeSRP.fromHex (lit "0a")) = Some 2%nat /\
  TypeSRP.kHexLength
    (TypeSRP.mod_ (TypeSRP.fromHex (lit "0a")) (TypeSRP.fromHex (lit "0007"))) =
    Some 4%nat /\
  TypeSRP.kHexLength
    (TypeSRP.mod_ (TypeSRP.fromHex (lit "0a")) (TypeSRP.fromHex (lit "0007"))) <>
    TypeSRP.kHexLength (TypeSRP.fromHex (lit "0a")) /\
  TypeSRP.toHex
    (TypeSRP.mod_ (TypeSRP.fromHex (lit "0a")) (TypeSRP.fromHex (lit "0007"))) =
    lit "0003".
Proof.
  split; [reflexivity |]. split; [reflexivity |].
  split; [discriminate | reflexivity].
Qed.

(** ** C9 *)

(** C9 (as amended).  For a value v >= 0, [toUint8Array] returns the bytes of
    the hex encoding of v made even by a leading zero; they denote v in
    big-endian order; there are ceil(bitlen(v) / 8) of them when v > 0, and
    for v = 0 the result is the single byte 0. *)
Theorem C9_toUint8Array (this : TypeSRP.t) :
  0 <= TypeSRP.kBigInteger this ->
  let v := TypeSRP.kBigInteger this in
  TypeSRP.toUint8Array this = hexDecode (evenHex (BigInteger.toString16 v)) /\
  validBytes (TypeSRP.toUint8Array this) /\
  bval (TypeSRP.toUint8Array this) = v /\
  (0 < v -> Z.of_nat (length (TypeSRP.toUint8Array this)) = (bitlen v + 7) / 8) /\
  (v = 0 -> TypeSRP.toUint8Array this = [0]).
Proof.
  intros Hv v. split_all.
  - now apply toUint8Array_hexDecode.
  - rewrite toUint8Array_hexDecode by assumption. apply hexDecode_valid.
  - now apply toUint8Array_value.
  - now apply toUint8Array_length.
  - now apply toUint8Array_zero.
Qed.

Lemma C9_toUint8Array_witness :
  Z.of_nat (length (TypeSRP.toUint8Array (TypeSRP.fromBigInt 0xabc))) =
  (bitlen 0xabc + 7) / 8.
Proof.
  apply (C9_toUint8Array (TypeSRP.fromBigInt 0xabc)); [discriminate | reflexivity].
Defined.

(** ZERO has bit length 0 and one byte. *)
Lemma C9_counterexample :
  TypeSRP.toUint8Array TypeSRP.ZERO = [0] /\
  (bitlen (TypeSRP.kBigInteger TypeSRP.ZERO) + 7) / 8 = 0 /\
  Z.of_nat (length (TypeSRP.toUint8Array TypeSRP.ZERO)) <>
    (bitlen (TypeSRP.kBigInteger TypeSRP.ZERO) + 7) / 8 /\
  length (TypeSRP.toUint8Array TypeSRP.ZERO) <> 0%nat.
Proof.
  split; [reflexivity |]. split; [reflexivity |]. split; discriminate.
Qed.

(** ** C10 *)

(** C10.  The TypeSRP values of 0xabc and 0xabd, which carry no hex width,
    differ; their hex encodings "abc" and "abd" have odd length, both are fed
    to the hash as the single byte ab, and any two calls of [H] that differ
    only in them return the same result. *)
Theorem C10_hash_collision :
  let x := TypeSRP.fromBigInt 0xabc in
  let y := TypeSRP.fromBigInt 0xabd in
  TypeSRP.equals x y = false /\
  TypeSRP.toHex x = lit "abc" /\ TypeSRP.toHex y = lit "abd" /\
  Sha256.update (Sha256.VTypeSRP x) = Ok [0xab] /\
  Sha256.update (Sha256.VTypeSRP y) = Ok [0xab] /\
  (forall before after,
     Params.H (before ++ Sha256.VTypeSRP x :: after) =
     Params.H (before ++ Sha256.VTypeSRP y :: after)) /\
  Params.H [Sha256.VTypeSRP x] = Params.H [Sha256.VTypeSRP y].
Proof.
  cbv zeta. split_all; try reflexivity.
  intros before after. unfold Params.H, Sha256.hash.
  rewrite !absorb_app. reflexivity.
Qed.

(* ================================================================= *)
(** * Further properties of the code *)

(** ** gcd and modInverse *)

Lemma rem_abs_lt a b : b <> 0 -> Z.abs (Z.rem a b) < Z.abs b.
Proof. intros Hb. apply Z.rem_bound_abs. exact Hb. Qed.

Lemma gcd_rem_step a b : Z.gcd b (Z.rem a b) = Z.gcd a b.
Proof.
  destruct (Z.eq_dec b 0) as [-> | Hb].
  - rewrite Z.rem_0_r_ext by reflexivity. now rewrite Z.gcd_0_l, Z.gcd_0_r.
  - pose proof (Z.quot_rem a b Hb) as E.
    replace (Z.rem a b) with (a + (- (Z.quot a b)) * b) by lia.
    rewrite Z.gcd_add_mult_diag_r. apply Z.gcd_comm.
Qed.

(** Two turns of the loop at least halve the magnitude of the second
    component. *)
Lemma rem_rem_half a b :
  b <> 0 -> Z.rem a b <> 0 -> 2 * Z.abs (Z.rem b (Z.rem a b)) < Z.abs b.
Proof.
  intros Hb Hr.
  pose proof (rem_abs_lt a b Hb) as H1.
  set (r := Z.rem a b) in *.
  rewrite <- Z.rem_abs by exact Hr.
  assert (Hr0 : 0 < Z.abs r) by lia.
  rewrite Z.rem_mod_nonneg by lia.
  pose proof (Z.mod_pos_bound (Z.abs b) (Z.abs r) Hr0) as Hm.
  pose proof (Z.div_mod (Z.abs b) (Z.abs r) ltac:(lia)) as Hd.
  assert (1 <= Z.abs b / Z.abs r) by (apply Z.div_le_lower_bound; lia).
  nia.
Qed.

Lemma gcdLoop_enough n : forall a b, Z.abs b < 2 ^ Z.of_nat n ->
  exists r, TypeSRP.gcdLoop (S (2 * n)) a b = Some r /\ Z.abs r = Z.gcd a b.
Proof.
  induction n as [| n IH]; intros a b Hb.
  - assert (b = 0) by (simpl in Hb; lia). subst b.
    exists a. split; [reflexivity |]. now rewrite Z.gcd_0_r.
  - replace (S (2 * S n)) with (S (S (S (2 * n)))) by lia.
    cbn [TypeSRP.gcdLoop].
    destruct (Z.eqb_spec b 0) as [-> | Hb0].
    + exists a. split; [reflexivity |]. now rewrite Z.gcd_0_r.
    + destruct (Z.eqb_spec (Z.rem a b) 0) as [Hr0 | Hr0].
      * exists b. split; [reflexivity |].
        rewrite <- gcd_rem_step, Hr0. now rewrite Z.gcd_0_r.
      * destruct (IH (Z.rem a b) (Z.rem b (Z.rem a b))) as (r & Hr & Hg).
        { pose proof (rem_rem_half a b Hb0 Hr0).
          rewrite Nat2Z.inj_succ, Z.pow_succ_r in Hb by lia. lia. }
        exists r. split; [exact Hr |].
        rewrite Hg, gcd_rem_step, gcd_rem_step. reflexivity.
Qed.

Lemma gcdLoop_total a b :
  exists r, TypeSRP.gcdLoop (TypeSRP.gcdFuel b) a b = Some r /\ Z.abs r = Z.gcd a b.
Proof.
  unfold TypeSRP.gcdFuel. apply gcdLoop_enough.
  rewrite Nat2Z.inj_succ, Z2Nat.id by apply Z.log2_nonneg.
  destruct (Z.eq_dec b 0) as [-> | Hb].
  - simpl. lia.
  - destruct (Z.log2_spec (Z.abs b)) as [_ H]; lia.
Qed.

Lemma gcdLoop_nonneg fuel : forall a b r, 0 <= a -> 0 <= b ->
  TypeSRP.gcdLoop fuel a b = Some r -> 0 <= r.
Proof.
  induction fuel as [| f IH]; intros a b r Ha Hb; cbn [TypeSRP.gcdLoop];
    destruct (Z.eqb_spec b 0) as [-> | Hb0]; intros E; try discriminate E.
  - now injection E as <-.
  - now injection E as <-.
  - apply (IH b (Z.rem a b)); auto.
    rewrite Z.rem_mod_nonneg by lia. apply Z.mod_pos_bound. lia.
Qed.

Lemma gcd_correct (a b : Z) :
  TypeSRP.gcdLoop (TypeSRP.gcdFuel b) a b = Some (TypeSRP.gcd a b) /\
  Z.abs (TypeSRP.gcd a b) = Z.gcd a b /\
  (0 <= a -> 0 <= b -> TypeSRP.gcd a b = Z.gcd a b).
Proof.
  destruct (gcdLoop_total a b) as (r & Hr & Hg).
  assert (E : TypeSRP.gcd a b = r) by (unfold TypeSRP.gcd; now rewrite Hr).
  rewrite E. split; [exact Hr |]. split; [exact Hg |].
  intros Ha Hb. pose proof (gcdLoop_nonneg _ a b r Ha Hb Hr). lia.
Qed.

Lemma gcd_nonneg_spec a b : 0 <= a -> 0 <= b -> TypeSRP.gcd a b = Z.gcd a b.
Proof. intros. now apply gcd_correct. Qed.

Lemma modInverse_spec (this m : TypeSRP.t) :
  0 <= TypeSRP.kBigInteger this -> 2 <= TypeSRP.kBigInteger m ->
  TypeSRP.modInverse this m =
    if Z.gcd (TypeSRP.kBigInteger this) (TypeSRP.kBigInteger m) =? 1
    then Ok (TypeSRP.fromBigInt
               (TypeSRP.kBigInteger this ^ (TypeSRP.kBigInteger m - 2)
                mod TypeSRP.kBigInteger m))
    else Throw (Error (lit "Modular inverse does not exist: gcd(a, m) is not 1")).
Proof.
  intros Ha Hm. unfold TypeSRP.modInverse, TypeSRP.toBigInt.
  rewrite gcd_nonneg_spec by lia.
  destruct (Z.gcd (TypeSRP.kBigInteger this) (TypeSRP.kBigInteger m) =? 1);
    cbn [negb]; [| reflexivity].
  rewrite modularExponentiation_correct by lia. reflexivity.
Qed.

(** X1.  The loop of [gcd] ends within the turns [gcdFuel] allows, for all
    integers; the result is the greatest common divisor up to sign, and is the
    greatest common divisor when neither argument is negative. *)
Theorem X1_gcd (a b : Z) :
  TypeSRP.gcdLoop (TypeSRP.gcdFuel b) a b = Some (TypeSRP.gcd a b) /\
  Z.abs (TypeSRP.gcd a b) = Z.gcd a b /\
  (0 <= a -> 0 <= b -> TypeSRP.gcd a b = Z.gcd a b).
Proof. exact (gcd_correct a b). Qed.

Lemma X1_gcd_witness : TypeSRP.gcd 12 18 = Z.gcd 12 18.
Proof. apply (X1_gcd 12 18); discriminate. Defined.

(** X2.  For a value >= 0 and a modulus >= 2, [modInverse] throws 'Modular
    inverse does not exist: gcd(a, m) is not 1' exactly when the two are not
    coprime, and otherwise returns this^(m - 2) mod m, which lies in [0, m)
    and carries no hex width. *)
Theorem X2_modInverse_guard (this m : TypeSRP.t) :
  0 <= TypeSRP.kBigInteger this -> 2 <= TypeSRP.kBigInteger m ->
  (TypeSRP.modInverse this m =
     Throw (Error (lit "Modular inverse does not exist: gcd(a, m) is not 1"))
   <-> Z.gcd (TypeSRP.kBigInteger this) (TypeSRP.kBigInteger m) <> 1) /\
  (Z.gcd (TypeSRP.kBigInteger this) (TypeSRP.kBigInteger m) = 1 ->
   TypeSRP.modInverse this m =
     Ok (TypeSRP.mk (TypeSRP.kBigInteger this ^ (TypeSRP.kBigInteger m - 2)
                     mod TypeSRP.kBigInteger m) None) /\
   0 <= TypeSRP.kBigInteger this ^ (TypeSRP.kBigInteger m - 2)
        mod TypeSRP.kBigInteger m < TypeSRP.kBigInteger m).
Proof.
  intros Ha Hm. rewrite (modInverse_spec this m Ha Hm).
  destruct (Z.eqb_spec (Z.gcd (TypeSRP.kBigInteger this) (TypeSRP.kBigInteger m)) 1)
    as [E | E].
  - split; [split; [discriminate | contradiction] |].
    intros _. split; [reflexivity |]. apply Z.mod_pos_bound. lia.
  - split; [split; [intros _; exact E | reflexivity] |].
    intros E'. contradiction.
Qed.

Lemma X2_modInverse_guard_witness :
  TypeSRP.modInverse (TypeSRP.fromBigInt 4) (TypeSRP.fromBigInt 6) =
  Throw (Error (lit "Modular inverse does not exist: gcd(a, m) is not 1")).
Proof.
  apply (X2_modInverse_guard (TypeSRP.fromBigInt 4) (TypeSRP.fromBigInt 6));
    discriminate.
Defined.



(** X4.  For a base, exponents a and b >= 0 and a modulus >= 2, [modPow]
    returns a value in [0, m) without hex width, and composes as powers do:
    raising the result for a to b is [modPow] to the product a * b, and
    [modPow] to the sum a + b is the product of the two results modulo m. *)
Theorem X4_modPow_laws (base a b m : TypeSRP.t) :
  0 <= TypeSRP.kBigInteger base -> 0 <= TypeSRP.kBigInteger a ->
  0 <= TypeSRP.kBigInteger b -> 2 <= TypeSRP.kBigInteger m ->
  exists p q,
    TypeSRP.modPow base (TypeSRP.ofTypeSRP a) (TypeSRP.ofTypeSRP m) = Ok p /\
    TypeSRP.modPow base (TypeSRP.ofTypeSRP b) (TypeSRP.ofTypeSRP m) = Ok q /\
    0 <= TypeSRP.kBigInteger p < TypeSRP.kBigInteger m /\
    TypeSRP.kHexLength p = None /\
    TypeSRP.modPow p (TypeSRP.ofTypeSRP b) (TypeSRP.ofTypeSRP m) =
      TypeSRP.modPow base (TypeSRP.ofTypeSRP (TypeSRP.multiply a b)) (TypeSRP.ofTypeSRP m) /\
    TypeSRP.modPow base (TypeSRP.ofTypeSRP (TypeSRP.add a b)) (TypeSRP.ofTypeSRP m) =
      Ok (TypeSRP.fromBigInt
            (TypeSRP.kBigInteger (TypeSRP.mod_ (TypeSRP.multiply p q) m))).
Proof.
  intros Hbase Ha Hb Hm.
  destruct (modPow_value base a m Hbase Ha Hm) as (p & Ep & -> & Rp).
  destruct (modPow_value base b m Hbase Hb Hm) as (q & Eq & -> & Rq).
  exists (TypeSRP.mk (TypeSRP.kBigInteger base ^ TypeSRP.kBigInteger a
                      mod TypeSRP.kBigInteger m) None),
         (TypeSRP.mk (TypeSRP.kBigInteger base ^ TypeSRP.kBigInteger b
                      mod TypeSRP.kBigInteger m) None).
  cbn [TypeSRP.kBigInteger] in *.
  split_all; auto; try lia.
  - rewrite !modPow_correct; cbn [TypeSRP.kBigInteger]; try lia.
    + rewrite value_multiply. rewrite Z.mod_pow_l.
      rewrite Z.pow_mul_r by lia. reflexivity.
    + rewrite value_multiply. nia.
  - rewrite modPow_correct; try lia.
    + rewrite value_add, Z.pow_add_r by lia.
      rewrite value_mod; rewrite ?value_multiply; cbn [TypeSRP.kBigInteger]; try nia.
      rewrite <- Z.mul_mod by lia. reflexivity.
    + rewrite value_add. lia.
Qed.

Lemma X4_modPow_laws_witness :
  exists p q,
    TypeSRP.modPow (TypeSRP.fromBigInt 5) (TypeSRP.ofTypeSRP (TypeSRP.fromBigInt 3))
      (TypeSRP.ofTypeSRP (TypeSRP.fromBigInt 23)) = Ok p /\
    TypeSRP.modPow (TypeSRP.fromBigInt 5) (TypeSRP.ofTypeSRP (TypeSRP.fromBigInt 4))
      (TypeSRP.ofTypeSRP (TypeSRP.fromBigInt 23)) = Ok q /\
    0 <= TypeSRP.kBigInteger p < 23 /\
    TypeSRP.kHexLength p = None /\
    TypeSRP.modPow p (TypeSRP.ofTypeSRP (TypeSRP.fromBigInt 4))
      (TypeSRP.ofTypeSRP (TypeSRP.fromBigInt 23)) =
      TypeSRP.modPow (TypeSRP.fromBigInt 5)
        (TypeSRP.ofTypeSRP (TypeSRP.multiply (TypeSRP.fromBigInt 3) (TypeSRP.fromBigInt 4)))
        (TypeSRP.ofTypeSRP (TypeSRP.fromBigInt 23)) /\
    TypeSRP.modPow (TypeSRP.fromBigInt 5)
        (TypeSRP.ofTypeSRP (TypeSRP.add (TypeSRP.fromBigInt 3) (TypeSRP.fromBigInt 4)))
        (TypeSRP.ofTypeSRP (TypeSRP.fromBigInt 23)) =
      Ok (TypeSRP.fromBigInt
            (TypeSRP.kBigInteger
               (TypeSRP.mod_ (TypeSRP.multiply p q) (TypeSRP.fromBigInt 23)))).
Proof.
  apply (X4_modPow_laws (TypeSRP.fromBigInt 5) (TypeSRP.fromBigInt 3)
           (TypeSRP.fromBigInt 4) (TypeSRP.fromBigInt 23)); discriminate.
Defined.

(** X5.  For a value >= 0, with or without hex width, [toHex] is a hex string
    that is not empty, and [fromHex] reads it back: the value is the same and
    [toHex] of the result is the same string. *)
Theorem X5_toHex_fromHex (this : TypeSRP.t) :
  0 <= TypeSRP.kBigInteger this ->
  isHex (TypeSRP.toHex this) = true /\
  TypeSRP.toHex this <> [] /\
  TypeSRP.kBigInteger (TypeSRP.fromHex (TypeSRP.toHex this)) = TypeSRP.kBigInteger this /\
  TypeSRP.toHex (TypeSRP.fromHex (TypeSRP.toHex this)) = TypeSRP.toHex this.
Proof. exact (toHex_roundtrip this). Qed.

Lemma X5_toHex_fromHex_witness :
  TypeSRP.toHex (TypeSRP.fromHex (TypeSRP.toHex (TypeSRP.mk 0xabc (Some 6%nat)))) =
  TypeSRP.toHex (TypeSRP.mk 0xabc (Some 6%nat)).
Proof. apply (X5_toHex_fromHex (TypeSRP.mk 0xabc (Some 6%nat))). discriminate. Defined.

(** X6.  Every hash the client returns in hex has exactly 64 lowercase
    hexadecimal digits: [derivePrivateKey] and [deriveVerifierHash] never
    throw and return such a string, and so are the key and the proof of any
    session [deriveSession] returns. *)
Theorem X6_hash_outputs :
  (forall salt username password, exists sk,
     SRPClient.derivePrivateKey salt username password = Ok sk /\
     length sk = 64%nat /\ isHex sk = true /\ toLowerCase sk = sk) /\
  (forall args, exists x,
     SRPClient.deriveVerifierHash args = Ok x /\
     length x = 64%nat /\ isHex x = true /\ toLowerCase x = x) /\
  (forall a B s I x session,
     SRPClient.deriveSession a B s I x = Ok session ->
     length (SRPClient.key session) = 64%nat /\
     isHex (SRPClient.key session) = true /\
     length (SRPClient.proof session) = 64%nat /\
     isHex (SRPClient.proof session) = true).
Proof.
  split_all.
  - intros salt username password. unfold SRPClient.derivePrivateKey.
    rewrite hash1s, bind_Ok, hash2, bind_Ok.
    eexists. split; [reflexivity |]. apply toHex_Hof_shape.
  - intros args. unfold SRPClient.deriveVerifierHash. rewrite hash1, bind_Ok.
    eexists. split; [reflexivity |]. apply toHex_Hof_shape.
  - intros a B s I x session. unfold SRPClient.deriveSession.
    destruct (TypeSRP.equals _ _); [discriminate |].
    destruct (TypeSRP.modPow Params.g (TypeSRP.ofTypeSRP (TypeSRP.fromHex a)) _)
      as [A | e]; [| discriminate].
    rewrite bind_Ok, hash2, bind_Ok.
    destruct (TypeSRP.modPow Params.g (TypeSRP.ofTypeSRP (TypeSRP.fromHex x)) _)
      as [gx | e]; [| discriminate].
    rewrite bind_Ok.
    destruct (TypeSRP.modPow _ _ _) as [S | e]; [| discriminate].
    rewrite bind_Ok, hash1, bind_Ok, hash1, bind_Ok, hash1, bind_Ok, hash1s, bind_Ok,
      hash6, bind_Ok.
    intros E. injection E as <-. cbn [SRPClient.key SRPClient.proof].
    split_all; apply toHex_Hof_shape.
Qed.

(** ** g and N are coprime; bytes in hex *)

Lemma gcd_N_g : Z.gcd (TypeSRP.kBigInteger Params.N) (TypeSRP.kBigInteger Params.g) = 1.
Proof. vm_compute. reflexivity. Qed.

Lemma coprime_pow_divide n b e : 0 <= e -> Z.gcd n b = 1 -> (n | b ^ e) -> (n | 1).
Proof.
  intros He Hg. revert e He. apply (natlike_ind (fun e => (n | b ^ e) -> (n | 1))).
  - intros H. exact H.
  - intros e He IH H. rewrite Z.pow_succ_r in H by assumption.
    apply IH. now apply (Z.gauss n b).
Qed.

Lemma pow_g_mod_N e : 0 <= e ->
  0 < TypeSRP.kBigInteger Params.g ^ e mod TypeSRP.kBigInteger Params.N
    < TypeSRP.kBigInteger Params.N.
Proof.
  intros He. pose proof N_ge_2 as HN.
  pose proof (Z.mod_pos_bound (TypeSRP.kBigInteger Params.g ^ e)
                (TypeSRP.kBigInteger Params.N) ltac:(lia)) as B.
  enough (TypeSRP.kBigInteger Params.g ^ e mod TypeSRP.kBigInteger Params.N <> 0) by lia.
  intros E. apply Z.mod_divide in E; [| lia].
  apply (coprime_pow_divide _ _ _ He gcd_N_g) in E.
  apply Z.divide_1_r_nonneg in E; lia.
Qed.

Lemma value_fromHex_toLowerCase s : isHex s = true ->
  TypeSRP.kBigInteger (TypeSRP.fromHex (toLowerCase s)) =
  TypeSRP.kBigInteger (TypeSRP.fromHex s).
Proof.
  intros Hs. destruct s as [| c rest]; [reflexivity |].
  rewrite <- (toHex_fromHex (c :: rest)) by (auto; discriminate).
  apply (toHex_roundtrip (TypeSRP.fromHex (c :: rest))).
  now apply value_fromHex_nonneg.
Qed.

Lemma byteToHex_hexEncode b : 0 <= b < 256 -> SRPClient.byteToHex b = hexEncode [b].
Proof.
  intros Hb. unfold SRPClient.byteToHex.
  rewrite padStart_toString16 by (change (16 ^ Z.of_nat 2) with 256; lia || lia).
  cbn [BigInteger.digitsFrom map hexEncode].
  change (4 * Z.of_nat 1) with 4. change (4 * Z.of_nat 0) with 0.
  rewrite Z.shiftr_0_r, Z.shiftr_div_pow2 by lia. change (2 ^ 4) with 16.
  rewrite (Z.mod_small (b / 16) 16) by (apply byte_digits; assumption).
  reflexivity.
Qed.

Lemma concat_byteToHex bs : validBytes bs ->
  concat (map SRPClient.byteToHex bs) = hexEncode bs.
Proof.
  induction 1 as [| b rest Hb _ IH]; [reflexivity |].
  cbn [map concat]. rewrite IH, byteToHex_hexEncode by assumption. reflexivity.
Qed.

(** ** The session on encodings of whole bytes *)

(** X7.  Where B and s are written on an even number of hex digits (s not
    empty) and the hex encodings of A = g^a mod N and of S have an even number
    of digits, [deriveSession] returns the session of the specification: the
    key is the hex of the digest K = H(S) and the proof the hex of the digest
    M = H(H(N) xor H(g), H(I), s, A, B, K), with H absorbing each integer as
    the bytes of its hex encoding, k = H(N, g), u = H(A, B) and
    S = ((B + N - (k g^x mod N)) mod N)^(a + u x) mod N. *)
Theorem X7_deriveSession_even (a_hex B_hex s_hex I x_hex : str) :
  isHex a_hex = true -> isHex B_hex = true -> isHex s_hex = true ->
  isHex x_hex = true ->
  TypeSRP.kBigInteger (TypeSRP.fromHex B_hex) mod TypeSRP.kBigInteger Params.N <> 0 ->
  (length B_hex mod 2 = 0)%nat ->
  s_hex <> [] -> (length s_hex mod 2 = 0)%nat ->
  evenArg (HInt (specA a_hex)) ->
  evenArg (HInt (specS a_hex B_hex x_hex)) ->
  SRPClient.deriveSession a_hex B_hex s_hex I x_hex =
  Ok (specSession a_hex B_hex s_hex I x_hex).
Proof. intros. now apply deriveSession_spec. Qed.

Lemma X7_deriveSession_even_witness :
  SRPClient.deriveSession (lit "02") (lit "02") (lit "03") (lit "alice") (lit "00") =
  Ok (specSession (lit "02") (lit "02") (lit "03") (lit "alice") (lit "00")).
Proof.
  apply X7_deriveSession_even;
    first [vm_compute; reflexivity | vm_compute; discriminate].
Defined.

(** ** Public values *)

(** X8.  For a hex exponent e, g^e mod N is never 0 (g and N are coprime):
    [modPow] returns a value A with 0 < A < N, [derivePublicVerifier] returns
    its hex, and that hex, read back, passes the test B mod N <> 0 that
    [deriveSession] applies to a public ephemeral. *)
Theorem X8_public_values (e : str) :
  isHex e = true ->
  exists A,
    TypeSRP.modPow Params.g (TypeSRP.ofTypeSRP (TypeSRP.fromHex e))
      (TypeSRP.ofTypeSRP Params.N) = Ok A /\
    0 < TypeSRP.kBigInteger A < TypeSRP.kBigInteger Params.N /\
    SRPClient.derivePublicVerifier e = Ok (TypeSRP.toHex A) /\
    TypeSRP.kBigInteger (TypeSRP.fromHex (TypeSRP.toHex A))
      mod TypeSRP.kBigInteger Params.N <> 0.
Proof.
  intros He. pose proof (value_fromHex_nonneg e He) as H0.
  pose proof (pow_g_mod_N _ H0) as R.
  assert (Hg : 0 <= TypeSRP.kBigInteger Params.g) by (rewrite g_value; lia).
  pose proof (modPow_correct Params.g (TypeSRP.fromHex e) Params.N Hg H0 N_ge_2) as E.
  eexists. split; [exact E |]. rewrite value_fromBigInt.
  split; [exact R |]. split.
  - unfold SRPClient.derivePublicVerifier. rewrite E, bind_Ok. reflexivity.
  - match goal with |- context [TypeSRP.toHex ?A] =>
      destruct (toHex_roundtrip A) as (_ & _ & -> & _);
        [rewrite value_fromBigInt; lia |] end.
    rewrite value_fromBigInt, Z.mod_small by lia. lia.
Qed.

Lemma X8_public_values_witness :
  exists A,
    TypeSRP.modPow Params.g (TypeSRP.ofTypeSRP (TypeSRP.fromHex (lit "02")))
      (TypeSRP.ofTypeSRP Params.N) = Ok A /\
    0 < TypeSRP.kBigInteger A < TypeSRP.kBigInteger Params.N /\
    SRPClient.derivePublicVerifier (lit "02") = Ok (TypeSRP.toHex A) /\
    TypeSRP.kBigInteger (TypeSRP.fromHex (TypeSRP.toHex A))
      mod TypeSRP.kBigInteger Params.N <> 0.
Proof. apply (X8_public_values (lit "02")). reflexivity. Defined.

(** X9.  With a generator that returns a hex string h (not empty) for 32
    bytes, [generateSalt] returns h in lowercase, and [generateEphemeral]
    returns the secret h in lowercase and a public value that is
    [derivePublicVerifier] of the secret, g^a mod N in hex, which is not 0
    modulo N. *)
Theorem X9_generateEphemeral (randomHex : nat -> str) :
  isHex (randomHex 32%nat) = true -> randomHex 32%nat <> [] ->
  SRPClient.generateSalt randomHex = toLowerCase (randomHex 32%nat) /\
  exists e,
    SRPClient.generateEphemeral randomHex = Ok e /\
    SRPClient.secret e = toLowerCase (randomHex 32%nat) /\
    SRPClient.derivePublicVerifier (SRPClient.secret e) = Ok (SRPClient.public e) /\
    TypeSRP.kBigInteger (TypeSRP.fromHex (SRPClient.public e))
      mod TypeSRP.kBigInteger Params.N <> 0.
Proof.
  intros Hh Hne.
  unfold SRPClient.generateSalt, SRPClient.generateEphemeral, TypeSRP.randomInteger.
  change (Z.to_nat Params.hashOutputBytes) with 32%nat.
  split; [now apply toHex_fromHex |].
  pose proof (value_fromHex_nonneg _ Hh) as H0.
  pose proof (pow_g_mod_N _ H0) as R.
  assert (Hg : 0 <= TypeSRP.kBigInteger Params.g) by (rewrite g_value; lia).
  rewrite (modPow_correct Params.g (TypeSRP.fromHex (randomHex 32%nat)) Params.N Hg H0 N_ge_2).
  rewrite bind_Ok. eexists. split; [reflexivity |].
  cbn [SRPClient.secret SRPClient.public].
  rewrite toHex_fromHex by assumption. split; [reflexivity |]. split.
  - unfold SRPClient.derivePublicVerifier.
    assert (Hl : isHex (toLowerCase (randomHex 32%nat)) = true).
    { rewrite <- (toHex_fromHex _ Hh Hne).
      apply (toHex_roundtrip (TypeSRP.fromHex (randomHex 32%nat))). exact H0. }
    rewrite (modPow_correct Params.g (TypeSRP.fromHex (toLowerCase (randomHex 32%nat)))
               Params.N Hg (value_fromHex_nonneg _ Hl) N_ge_2).
    rewrite bind_Ok, value_fromHex_toLowerCase by assumption. reflexivity.
  - match goal with |- context [TypeSRP.toHex ?A] =>
      destruct (toHex_roundtrip A) as (_ & _ & -> & _);
        [rewrite value_fromBigInt; lia |] end.
    rewrite value_fromBigInt, Z.mod_small by lia. lia.
Qed.

Lemma X9_generateEphemeral_witness :
  SRPClient.generateSalt (fun _ => lit "0A") = toLowerCase (lit "0A") /\
  exists e,
    SRPClient.generateEphemeral (fun _ => lit "0A") = Ok e /\
    SRPClient.secret e = toLowerCase (lit "0A") /\
    SRPClient.derivePublicVerifier (SRPClient.secret e) = Ok (SRPClient.public e) /\
    TypeSRP.kBigInteger (TypeSRP.fromHex (SRPClient.public e))
      mod TypeSRP.kBigInteger Params.N <> 0.
Proof.
  apply (X9_generateEphemeral (fun _ => lit "0A")); [reflexivity | discriminate].
Defined.

(** ** The OPRF client *)

(** X10.  [finalizeOPRF] passes on what the deserializer or the finalization
    throws; when both return and the output is a list of bytes, the result is
    the output in hex: two lowercase digits per byte, which decode to the
    output. *)
Theorem X10_finalizeOPRF (FinalizeData Evaluation : Type)
    (deserialize : list Z -> result Evaluation)
    (finalize : FinalizeData -> Evaluation -> result (list Z))
    (responseData : list Z) (blindData : FinalizeData) :
  (forall e, deserialize responseData = Throw e ->
     SRPClient.finalizeOPRF _ _ deserialize finalize responseData blindData = Throw e) /\
  (forall ev e, deserialize responseData = Ok ev -> finalize blindData ev = Throw e ->
     SRPClient.finalizeOPRF _ _ deserialize finalize responseData blindData = Throw e) /\
  (forall ev output, deserialize responseData = Ok ev ->
     finalize blindData ev = Ok output -> validBytes output ->
     SRPClient.finalizeOPRF _ _ deserialize finalize responseData blindData =
       Ok (hexEncode output) /\
     length (hexEncode output) = (2 * length output)%nat /\
     isHex (hexEncode output) = true /\
     hexDecode (hexEncode output) = output).
Proof.
  unfold SRPClient.finalizeOPRF, OPRFClient.deserializeEvaluation,
    OPRFClient.finalizeEvaluation.
  split; [| split].
  - intros e ->. reflexivity.
  - intros ev e -> E. rewrite bind_Ok, E. reflexivity.
  - intros ev output -> E V. rewrite bind_Ok, E, bind_Ok.
    rewrite concat_byteToHex by assumption. split; [reflexivity |].
    split; [rewrite hexEncode_length; lia |].
    split; [now apply hexEncode_isHex | now apply hexDecode_hexEncode].
Qed.

(** X11.  [encodeInput] returns a Uint8Array as it is and, for a string that
    is not made of hex digits only, its UTF-8 bytes; a hex string of even
    length gives the bytes it encodes, and one of odd length gives those of
    its pairs followed by the last digit as a byte of its own: "abc" gives
    ab 0c, where the hash is fed ab and [toUint8Array] gives 0a bc. *)
Theorem X11_encodeInput :
  (forall bytes, OPRFClient.encodeInput (OPRFClient.ofUint8Array bytes) = bytes) /\
  (forall s, OPRFClient.isHexRegex s = false ->
     OPRFClient.encodeInput (OPRFClient.ofString s) = utf8 s) /\
  (forall s, isHex s = true -> s <> [] -> (length s mod 2 = 0)%nat ->
     OPRFClient.encodeInput (OPRFClient.ofString s) = hexDecode s) /\
  (forall s c, isHex s = true -> (length s mod 2 = 0)%nat -> isHexDigit c = true ->
     OPRFClient.encodeInput (OPRFClient.ofString (s ++ [c])) = hexDecode s ++ [digitOf c]) /\
  OPRFClient.encodeInput (OPRFClient.ofString (lit "abc")) = [0xab; 0x0c] /\
  Sha256.bufferOf (TypeSRP.fromHex (lit "abc")) = [0xab] /\
  TypeSRP.toUint8Array (TypeSRP.fromHex (lit "abc")) = [0x0a; 0xbc].
Proof.
  assert (P : forall s, isHex s = true -> (length s mod 2 = 0)%nat ->
            forall tl, map (fun byte => TypeSRP.toUint8 (TypeSRP.parseInt16 byte))
                         (OPRFClient.matchPairs (s ++ tl)) =
                       hexDecode s ++ map (fun byte => TypeSRP.toUint8 (TypeSRP.parseInt16 byte))
                                       (OPRFClient.matchPairs tl)).
  { intros s. induction s as [| c | c1 c2 rest IH] using pair_ind; intros Hs He tl.
    - reflexivity.
    - discriminate He.
    - pose proof (bytesOfPairs_hexDecode (c1 :: c2 :: rest) Hs) as E.
      simpl in Hs. apply andb_true_iff in Hs as [H1 Hs]. apply andb_true_iff in Hs as [H2 Hr].
      change (TypeSRP.bytesOfPairs (c1 :: c2 :: rest))
        with (TypeSRP.toUint8 (TypeSRP.parseInt16 [c1; c2]) :: TypeSRP.bytesOfPairs rest) in E.
      rewrite (bytesOfPairs_hexDecode rest Hr) in E.
      change ((c1 :: c2 :: rest) ++ tl) with (c1 :: c2 :: (rest ++ tl)).
      cbn [OPRFClient.matchPairs map]. rewrite IH; auto.
      + rewrite <- E. reflexivity.
      + change (length (c1 :: c2 :: rest)) with (S (S (length rest))) in He.
        replace (S (S (length rest))) with (length rest + 1 * 2)%nat in He by lia.
        now rewrite Nat.Div0.mod_add in He. }
  split_all; try reflexivity.
  - intros s Hs. unfold OPRFClient.encodeInput. now rewrite Hs.
  - intros s Hs Hne He. unfold OPRFClient.encodeInput, OPRFClient.isHexRegex.
    destruct s as [| c rest]; [contradiction |]. rewrite Hs.
    rewrite <- (app_nil_r (c :: rest)) at 1. rewrite P by assumption.
    cbn [OPRFClient.matchPairs map]. apply app_nil_r.
  - intros s c Hs He Hc. unfold OPRFClient.encodeInput, OPRFClient.isHexRegex.
    assert (Hsc : isHex (s ++ [c]) = true).
    { apply isHex_app; [assumption |]. cbn. now rewrite Hc. }
    rewrite Hsc. destruct (s ++ [c]) eqn:Es; [destruct s; discriminate |].
    rewrite <- Es. rewrite P by assumption.
    cbn [OPRFClient.matchPairs map]. rewrite parseInt16_digit by assumption.
    cbn [TypeSRP.parseDigits16]. rewrite (isHexDigit_digitOf c Hc).
    cbn [TypeSRP.toUint8]. pose proof (hexval_range _ _ (isHexDigit_digitOf c Hc)).
    rewrite Z.mod_small by lia. reflexivity.
Qed.

(** ** deriveVerifierHash with the arguments of the tutorial *)

(** X12.  With string arguments only, the call of the tutorial is
    [deriveVerifierHash] on the strings.  A Uint8Array argument enters the
    concatenation as its elements in decimal with commas between them: the
    bytes 1, 2 next to the string "ab" make "1,2ab", which [fromHex] reads
    as 0x12ab on five digits; the hash is fed the bytes 01 2a, the same
    bytes as with the string "ac", and the two verifier hashes are equal. *)
Theorem X12_tutorial_verifier_hash :
  (forall args, Dynamic.deriveVerifierHash (map Dynamic.JString args) =
                SRPClient.deriveVerifierHash args) /\
  Dynamic.toString (Dynamic.JUint8Array [1; 2]) = lit "1,2" /\
  TypeSRP.fromHex (lit "1,2ab") = TypeSRP.mk 0x12ab (Some 5%nat) /\
  Dynamic.deriveVerifierHash [Dynamic.JUint8Array [1; 2]; Dynamic.JString (lit "ab")] =
    Ok (hexEncode (SHA256.sha256 [0x01; 0x2a])) /\
  Dynamic.deriveVerifierHash [Dynamic.JUint8Array [1; 2]; Dynamic.JString (lit "ac")] =
    Ok (hexEncode (SHA256.sha256 [0x01; 0x2a])).
Proof.
  split.
  { intros args. unfold Dynamic.deriveVerifierHash, SRPClient.deriveVerifierHash.
    rewrite map_map. cbn [Dynamic.toString]. now rewrite map_id. }
  split; [vm_compute; reflexivity |]. split; [vm_compute; reflexivity |].
  split; unfold Dynamic.deriveVerifierHash;
    rewrite hash1, bind_Ok, toHex_Hof_hexEncode; vm_compute; reflexivity.
Qed.

(** ** The private key and the private verifier *)

(** X13.  [derivePrivateKey] returns the hex of H(s, H(I ":" p)); the
    username and the password enter through their concatenation around a
    colon only, so that moving a colon from one to the other does not change
    the key. *)
Theorem X13_derivePrivateKey_separator (salt I p q : str) :
  SRPClient.derivePrivateKey salt I p =
    Ok (TypeSRP.toHex (Hof [HInt (TypeSRP.fromHex salt);
                            HInt (Hof [HStr (I ++ lit ":" ++ p)])])) /\
  SRPClient.derivePrivateKey salt (I ++ lit ":" ++ p) q =
  SRPClient.derivePrivateKey salt I (p ++ lit ":" ++ q).
Proof.
  split.
  - unfold SRPClient.derivePrivateKey. rewrite hash1s, bind_Ok, hash2, bind_Ok.
    reflexivity.
  - unfold SRPClient.derivePrivateKey. rewrite <- !app_assoc. reflexivity.
Qed.

(** X14.  For a hex private key sk, [derivePrivateVerifier] returns the
    big-endian bytes of g^sk mod N: bytes that denote this number, which is
    not 0, ceil(bitlen / 8) of them, 384 at most. *)
Theorem X14_derivePrivateVerifier (privateKey : str) :
  isHex privateKey = true ->
  exists bytes,
    SRPClient.derivePrivateVerifier privateKey = Ok bytes /\
    validBytes bytes /\
    bval bytes = TypeSRP.kBigInteger Params.g ^ TypeSRP.kBigInteger (TypeSRP.fromHex privateKey)
                 mod TypeSRP.kBigInteger Params.N /\
    0 < bval bytes < TypeSRP.kBigInteger Params.N /\
    Z.of_nat (length bytes) = (bitlen (bval bytes) + 7) / 8 /\
    (1 <= length bytes <= 384)%nat.
Proof.
  intros Hs. pose proof (value_fromHex_nonneg privateKey Hs) as H0.
  pose proof (pow_g_mod_N _ H0) as R.
  assert (Hg : 0 <= TypeSRP.kBigInteger Params.g) by (rewrite g_value; lia).
  unfold SRPClient.derivePrivateVerifier.
  rewrite (modPow_correct Params.g (TypeSRP.fromHex privateKey) Params.N Hg H0 N_ge_2).
  rewrite bind_Ok. eexists. split; [reflexivity |].
  match goal with |- context [TypeSRP.toUint8Array ?A] => set (v := A) end.
  assert (Hv : 0 <= TypeSRP.kBigInteger v) by (unfold v; rewrite value_fromBigInt; lia).
  assert (Hp : 0 < TypeSRP.kBigInteger v) by (unfold v; rewrite value_fromBigInt; lia).
  pose proof (toUint8Array_value v Hv) as EV.
  pose proof (toUint8Array_length v Hv Hp) as EL.
  assert (Kv : TypeSRP.kBigInteger v =
               TypeSRP.kBigInteger Params.g ^ TypeSRP.kBigInteger (TypeSRP.fromHex privateKey)
               mod TypeSRP.kBigInteger Params.N) by (unfold v; apply value_fromBigInt).
  split_all.
  - rewrite (toUint8Array_hexDecode v Hv). apply hexDecode_valid.
  - rewrite EV. exact Kv.
  - rewrite EV, Kv. lia.
  - rewrite EV, Kv. lia.
  - rewrite EV. exact EL.
  - enough (1 <= Z.of_nat (length (TypeSRP.toUint8Array v))) by lia.
    rewrite EL. unfold bitlen.
    destruct (Z.eqb_spec (TypeSRP.kBigInteger v) 0); [lia |].
    pose proof (Z.log2_nonneg (TypeSRP.kBigInteger v)).
    apply Z.div_le_lower_bound; lia.
  - enough (Z.of_nat (length (TypeSRP.toUint8Array v)) < 385) by lia.
    rewrite EL. unfold bitlen.
    destruct (Z.eqb_spec (TypeSRP.kBigInteger v) 0); [lia |].
    pose proof N_large as [_ HN].
    assert (Z.log2 (TypeSRP.kBigInteger v) < 3072)
      by (apply Z.log2_lt_pow2; lia).
    apply Z.div_lt_upper_bound; lia.
Qed.

Lemma X14_derivePrivateVerifier_witness :
  exists bytes,
    SRPClient.derivePrivateVerifier (lit "02") = Ok bytes /\
    validBytes bytes /\
    bval bytes = TypeSRP.kBigInteger Params.g ^ TypeSRP.kBigInteger (TypeSRP.fromHex (lit "02"))
                 mod TypeSRP.kBigInteger Params.N /\
    0 < bval bytes < TypeSRP.kBigInteger Params.N /\
    Z.of_nat (length bytes) = (bitlen (bval bytes) + 7) / 8 /\
    (1 <= length bytes <= 384)%nat.
Proof. apply (X14_derivePrivateVerifier (lit "02")). reflexivity. Defined.
